(** * Roku web remote: discovery aggregation and ECP translation

    A shallow embedding of [src/server/services/DeviceDiscovery.js] and
    [src/server/services/RokuService.js].  JavaScript values are kept as the
    code sees them: [undefined] is [None], the truthiness tests of [||] and
    [&&] are written out, a [Map] is an insertion-ordered association list,
    a promise is a one-shot cell, and a thrown exception is the [Thrown]
    branch of an outcome. *)

From Stdlib Require Import List String Ascii Bool NArith ZArith Lia DecimalString
  FinFun.
Import ListNotations.

Local Open Scope list_scope.
Local Open Scope string_scope.

(* ================================================================== *)
(** ** The JavaScript fragment the services rely on *)

Module JS.

(** The result of [parseInt]: an integer or [NaN]. *)
Inductive number : Type :=
| NaN
| Num (z : Z).

(** [String(n)] / a template substitution of an integral number. *)
Definition number_to_string (z : Z) : string :=
  NilZero.string_of_int (Z.to_int z).

(** [`${v}`] for a string that may be [undefined]. *)
Definition template (v : option string) : string :=
  match v with
  | Some s => s
  | None => "undefined"
  end.

(** Truthiness of a possibly-undefined string. *)
Definition truthy (v : option string) : bool :=
  match v with
  | Some EmptyString => false
  | Some _ => true
  | None => false
  end.

(** Truthiness of a possibly-undefined integral number. *)
Definition truthy_num (v : option Z) : bool :=
  match v with
  | Some z => negb (z =? 0)%Z
  | None => false
  end.

(** [hay.includes(needle)]. *)
Fixpoint includes (needle hay : string) : bool :=
  prefix needle hay ||
  match hay with
  | EmptyString => false
  | String _ rest => includes needle rest
  end.

(** [size >= max] on numbers: any comparison with [NaN] is false. *)
Definition ge (size : nat) (max : number) : bool :=
  match max with
  | NaN => false
  | Num z => (z <=? Z.of_nat size)%Z
  end.

(** [arr.slice(0, end)]: [NaN] counts as [0], a negative [end] is taken
    from the back, and the result is clamped to the array. *)
Definition slice0 {A : Type} (l : list A) (e : number) : list A :=
  match e with
  | NaN => []
  | Num z =>
      if (z <? 0)%Z
      then firstn (Z.to_nat (Z.max (Z.of_nat (List.length l) + z) 0)) l
      else firstn (Z.to_nat z) l
  end.

(** A one-shot promise: the first [resolve] or [reject] wins. *)
Inductive promise (A : Type) : Type :=
| Pending
| Fulfilled (v : A)
| Rejected (reason : string).
Arguments Pending {A}.
Arguments Fulfilled {A} v.
Arguments Rejected {A} reason.

Definition resolve {A : Type} (p : promise A) (v : A) : promise A :=
  match p with
  | Pending => Fulfilled v
  | _ => p
  end.

(** The [Map] of the language: keys in insertion order; [set] on a key
    already present keeps its position and replaces its value. *)
Module Map.
Section Ops.
Context {V : Type}.

Definition t : Type := list (string * V).

Definition empty : t := [].

Fixpoint get (k : string) (m : t) : option V :=
  match m with
  | [] => None
  | (k', v) :: m' => if String.eqb k k' then Some v else get k m'
  end.

Definition has (k : string) (m : t) : bool :=
  match get k m with
  | Some _ => true
  | None => false
  end.

Fixpoint set (k : string) (v : V) (m : t) : t :=
  match m with
  | [] => [(k, v)]
  | (k', v') :: m' =>
      if String.eqb k k' then (k', v) :: m' else (k', v') :: set k v m'
  end.

Definition keys (m : t) : list string := map fst m.
Definition values (m : t) : list V := map snd m.
Definition size (m : t) : nat := List.length m.
End Ops.
Arguments t V : clear implicits.
End Map.

(** Values of the object trees the XML parser produces. *)
Local Unset Elimination Schemes.
Inductive value : Type :=
| VUndefined
| VNull
| VBool (b : bool)
| VString (s : string)
| VArray (items : list value)
| VObject (fields : list (string * value)).
Local Set Elimination Schemes.

(** Truthiness of a value: empty arrays and objects are truthy. *)
Definition truthy_value (v : value) : bool :=
  match v with
  | VUndefined | VNull => false
  | VBool b => b
  | VString EmptyString => false
  | VString _ => true
  | VArray _ | VObject _ => true
  end.

(** An error object: [code] is set by the HTTP client on transport
    failures and absent on errors made with [new Error(message)]. *)
Record error : Type := {
  code : option string;
  message : string
}.

Definition Error (message : string) : error :=
  {| code := None; message := message |}.

Definition TypeError (message : string) : error := Error message.

(** A computation either returns or throws (an awaited promise either
    fulfils or rejects). *)
Inductive outcome (A : Type) : Type :=
| Returned (a : A)
| Thrown (e : error).
Arguments Returned {A} a.
Arguments Thrown {A} e.

Definition bind {A B : Type} (o : outcome A) (k : A -> outcome B)
    : outcome B :=
  match o with
  | Returned a => k a
  | Thrown e => Thrown e
  end.

(** [try { body } catch (e) { handler }]. *)
Definition try_catch {A : Type} (body : outcome A)
    (handler : error -> outcome A) : outcome A :=
  match body with
  | Returned a => Returned a
  | Thrown e => handler e
  end.

(** [arr.map(f)] with a callback that may throw. *)
Fixpoint array_map {A B : Type} (f : A -> outcome B) (l : list A)
    : outcome (list B) :=
  match l with
  | [] => Returned []
  | a :: l' =>
      bind (f a) (fun b => bind (array_map f l') (fun bs => Returned (b :: bs)))
  end.

Fixpoint lookup (k : string) (fields : list (string * value))
    : option value :=
  match fields with
  | [] => None
  | (k', v) :: rest => if String.eqb k k' then Some v else lookup k rest
  end.

(** [v.k] for a key that is no built-in property of strings, booleans or
    arrays: a [TypeError] on [undefined] and [null], the field of an
    object, [undefined] otherwise. *)
Definition member (v : value) (k : string) : outcome value :=
  match v with
  | VUndefined | VNull =>
      Thrown (TypeError ("Cannot read properties of undefined (reading '"
                         ++ k ++ "')"))
  | VObject fields =>
      Returned (match lookup k fields with Some x => x | None => VUndefined end)
  | _ => Returned VUndefined
  end.

(** [v?.k]. *)
Definition opt_member (v : value) (k : string) : outcome value :=
  match v with
  | VUndefined | VNull => Returned VUndefined
  | _ => member v k
  end.

(** [v?.[0]]. *)
Definition opt_first (v : value) : value :=
  match v with
  | VArray (x :: _) => x
  | VString (String c _) => VString (String c EmptyString)
  | _ => VUndefined
  end.

(** The characters [encodeURIComponent] leaves as they are: letters,
    digits and [- _ . ! ~ * ' ( )]. *)
Definition unreserved (c : ascii) : bool :=
  let n := nat_of_ascii c in
  ((65 <=? n)%nat && (n <=? 90)%nat) || ((97 <=? n)%nat && (n <=? 122)%nat) ||
  ((48 <=? n)%nat && (n <=? 57)%nat) ||
  existsb (Ascii.eqb c) (list_ascii_of_string "-_.!~*'()").

Definition hexDigit (n : nat) : ascii :=
  match String.get n "0123456789ABCDEF" with
  | Some c => c
  | None => "0"%char
  end.

(** A string value of the language, as its sequence of 16-bit code units.
    Text that comes from a request body is kept in this form, because
    [encodeURIComponent] looks at surrogates. *)
Definition utf16 : Type := list N.


Definition URIError (message : string) : error := Error message.

(** Code units D800..DBFF and DC00..DFFF. *)
Definition isLeadSurrogate (u : N) : bool :=
  ((55296 <=? u) && (u <=? 56319))%N.

Definition isTrailSurrogate (u : N) : bool :=
  ((56320 <=? u) && (u <=? 57343))%N.

(** The UTF-8 octets of a code point. *)
Definition utf8Octets (cp : N) : list N :=
  (if cp <? 128 then [cp]
   else if cp <? 2048 then [192 + cp / 64; 128 + cp mod 64]
   else if cp <? 65536
   then [224 + cp / 4096; 128 + (cp / 64) mod 64; 128 + cp mod 64]
   else [240 + cp / 262144; 128 + (cp / 4096) mod 64;
         128 + (cp / 64) mod 64; 128 + cp mod 64])%N.

(** [%XX] for each octet, in upper-case hexadecimal. *)
Fixpoint percentEscape (octets : list N) : string :=
  match octets with
  | [] => EmptyString
  | o :: rest =>
      String "%" (String (hexDigit (N.to_nat (o / 16)))
                 (String (hexDigit (N.to_nat (o mod 16)))
                         (percentEscape rest)))
  end.

(** A code unit that is copied to the output. *)
Definition unescaped (u : N) : bool :=
  (u <? 128)%N && unreserved (ascii_of_N u).

(** [encodeURIComponent(s)]: an unreserved code unit stands for itself;
    any other code point is taken whole (a lead surrogate together with
    the trail surrogate that follows it) and replaced by the escapes of
    its UTF-8 octets; a surrogate that has no partner throws. *)
Fixpoint encodeURIComponent (s : utf16) : outcome string :=
  match s with
  | [] => Returned EmptyString
  | c :: rest =>
      if unescaped c
      then bind (encodeURIComponent rest)
                (fun r => Returned (String (ascii_of_N c) r))
      else if isLeadSurrogate c
      then
        match rest with
        | d :: rest' =>
            if isTrailSurrogate d
            then
              let cp := ((c - 55296) * 1024 + (d - 56320) + 65536)%N in
              bind (encodeURIComponent rest')
                   (fun r => Returned (percentEscape (utf8Octets cp) ++ r))
            else Thrown (URIError "URI malformed")
        | [] => Thrown (URIError "URI malformed")
        end
      else if isTrailSurrogate c
      then Thrown (URIError "URI malformed")
      else bind (encodeURIComponent rest)
                (fun r => Returned (percentEscape (utf8Octets c) ++ r))
  end.

End JS.

(* ================================================================== *)
(** ** DeviceDiscovery.js *)

(** What multicast-dns hands to a ['response'] listener. *)
Module Mdns.

(** A decoded resource record.  [data] is the dotted address of an [A]
    record and the text of a [TXT] record; [None] is a record without
    payload. *)
Record record : Type := {
  name : string;
  type : string;
  data : option string
}.

Record response : Type := {
  answers : option (list record);
  additionals : option (list record)
}.

End Mdns.

(** The object stored in the session map. *)
Module Device.
Record t : Type := {
  name : option string;
  ip : option string;
  port : option Z;
  type : option string;
  text : option string
}.
End Device.

(** The object [_normalizeDevice] returns. *)
Module Descriptor.
Record t : Type := {
  ip : option string;
  name : string;
  port : Z;
  type : string;
  url : string
}.
End Descriptor.

Module DeviceDiscovery.
Import JS.

(** [_extractDeviceInfo(record, allRecords)]; [null] is [None]. *)
Definition _extractDeviceInfo (record : Mdns.record)
    (allRecords : list Mdns.record) : option Device.t :=
  let aRecord :=
    find (fun r => String.eqb (Mdns.type r) "A" &&
                   String.eqb (Mdns.name r) (Mdns.name record)) allRecords in
  let ip :=
    match aRecord with
    | Some a => Mdns.data a
    | None => None
    end in
  let txtRecord :=
    find (fun r => String.eqb (Mdns.type r) "TXT" &&
                   String.eqb (Mdns.name r) (Mdns.name record)) allRecords in
  let text :=
    match txtRecord with
    | Some x => if truthy (Mdns.data x) then Mdns.data x else None
    | None => None
    end in
  let device :=
    {| Device.name := Some (Mdns.name record);
       Device.ip := ip;
       Device.port := Some 8060%Z;
       Device.type := Some "roku";
       Device.text := text |} in
  if truthy (Device.ip device) then Some device else None.

(** The two steps of the [forEach] body of [_processResponse]. *)
Definition serviceStep (allRecords : list Mdns.record)
    (discoveredMap : Map.t Device.t) (record : Mdns.record)
    : Map.t Device.t :=
  if truthy (Some (Mdns.name record)) && includes "Roku" (Mdns.name record)
  then
    match _extractDeviceInfo record allRecords with
    | Some device =>
        match Device.ip device with
        | Some a =>
            if truthy (Some a) then Map.set a device discoveredMap
            else discoveredMap
        | None => discoveredMap
        end
    | None => discoveredMap
    end
  else discoveredMap.

Definition addressStep (discoveredMap : Map.t Device.t)
    (record : Mdns.record) : Map.t Device.t :=
  match Mdns.data record with
  | Some a =>
      if String.eqb (Mdns.type record) "A" && truthy (Some a)
      then
        let device :=
          {| Device.name := Some (Mdns.name record);
             Device.ip := Some a;
             Device.port := Some 8060%Z;
             Device.type := Some "roku";
             Device.text := None |} in
        if negb (Map.has a discoveredMap)
        then Map.set a device discoveredMap
        else discoveredMap
      else discoveredMap
  | None => discoveredMap
  end.

Definition processRecord (allRecords : list Mdns.record)
    (discoveredMap : Map.t Device.t) (record : Mdns.record)
    : Map.t Device.t :=
  addressStep (serviceStep allRecords discoveredMap record) record.

Definition allRecordsOf (response : Mdns.response) : list Mdns.record :=
  (match Mdns.answers response with Some l => l | None => [] end ++
   match Mdns.additionals response with Some l => l | None => [] end)%list.

(** [_processResponse(response, discoveredMap)]: the map after the call. *)
Definition _processResponse (response : Mdns.response)
    (discoveredMap : Map.t Device.t) : Map.t Device.t :=
  let allRecords := allRecordsOf response in
  fold_left (processRecord allRecords) allRecords discoveredMap.

(** [_normalizeDevice(device)]. *)
Definition _normalizeDevice (device : Device.t) : Descriptor.t :=
  let port :=
    if truthy_num (Device.port device)
    then match Device.port device with Some p => p | None => 8060%Z end
    else 8060%Z in
  {| Descriptor.ip := Device.ip device;
     Descriptor.name :=
       if truthy (Device.name device)
       then template (Device.name device)
       else "Unknown Roku Device";
     Descriptor.port := port;
     Descriptor.type :=
       if truthy (Device.type device)
       then template (Device.type device)
       else "roku";
     Descriptor.url :=
       "http://" ++ template (Device.ip device) ++ ":" ++
       number_to_string port |}.

(** *** One [discover] call as a reactive system

    The executor of the promise creates the map, arms the timer and
    registers the two listeners; afterwards the call is driven by the
    events the runtime delivers. *)
Inductive event : Type :=
| Response (response : Mdns.response)
| Timeout
| ListenerError (error : string).

Record session : Type := {
  discoveredMap : Map.t Device.t;
  timerArmed : bool;      (* [setTimeout] pending, not cleared *)
  listening : bool;       (* [mDns] not destroyed *)
  result : promise (list Descriptor.t)
}.

Definition start : session :=
  {| discoveredMap := Map.empty;
     timerArmed := true;
     listening := true;
     result := Pending |}.

Section Handlers.
(** [this.maxDevices], set once by the constructor. *)
Variable maxDevices : number.

Definition onTimer (s : session) : session :=
  let devices :=
    map _normalizeDevice
        (slice0 (Map.values (discoveredMap s)) maxDevices) in
  {| discoveredMap := discoveredMap s;
     timerArmed := false;
     listening := false;
     result := resolve (result s) devices |}.

Definition onResponse (s : session) (response : Mdns.response)
    : session :=
  if ge (Map.size (discoveredMap s)) maxDevices
  then
    let devices := map _normalizeDevice (Map.values (discoveredMap s)) in
    {| discoveredMap := discoveredMap s;
       timerArmed := false;
       listening := false;
       result := resolve (result s) devices |}
  else
    {| discoveredMap := _processResponse response (discoveredMap s);
       timerArmed := timerArmed s;
       listening := listening s;
       result := result s |}.

Definition onError (s : session) (error : string) : session :=
  let devices := map _normalizeDevice (Map.values (discoveredMap s)) in
  {| discoveredMap := discoveredMap s;
     timerArmed := false;
     listening := false;
     result :=
       resolve (result s)
               (if (0 <? List.length devices)%nat then devices else []) |}.

(** The runtime delivers a timer tick only while the timer is armed and
    a listener event only while the socket is open. *)
Definition deliver (s : session) (e : event) : session :=
  match e with
  | Timeout => if timerArmed s then onTimer s else s
  | Response r => if listening s then onResponse s r else s
  | ListenerError err => if listening s then onError s err else s
  end.

(** [discover]: the session after the given events have been delivered. *)
Definition discover (events : list event) : session :=
  fold_left deliver events start.
End Handlers.

(** *** Vocabulary of the statements below *)

(** Every entry sits under its own address, carries the constants the
    two construction sites give it, and no key occurs twice. *)
Definition wellKeyed (m : Map.t Device.t) : Prop :=
  NoDup (Map.keys m) /\
  forall k d, In (k, d) m ->
    Device.ip d = Some k /\ Device.type d = Some "roku" /\
    Device.port d = Some 8060%Z.

(** A device object some discovery run holds in its session map. *)
Definition stored (device : Device.t) : Prop :=
  exists maxDevices events a,
    Map.get a (discoveredMap (discover maxDevices events)) = Some device.

(** The invariant of a running call. *)
Definition sessionInv (s : session) : Prop :=
  wellKeyed (discoveredMap s) /\
  match result s with
  | Pending => timerArmed s = true /\ listening s = true
  | Fulfilled devices => NoDup (map Descriptor.ip devices)
  | Rejected _ => False
  end.

End DeviceDiscovery.

(* ================================================================== *)
(** ** RokuService.js *)

(** The request configuration handed to the HTTP client, and its reply. *)
Module Request.
Record t : Type := {
  method : string;
  url : string;
  timeout : Z;
  data : option string
}.
End Request.

Module Reply.
Record t : Type := {
  status : Z;
  statusText : string;
  data : string
}.
End Reply.

(** One entry of the list [_parseAppsXml] returns. *)
Module App.
Record t : Type := {
  id : JS.value;
  name : JS.value;
  type : JS.value;
  version : JS.value
}.
End App.

Module RokuService.
Import JS.

Local Notation "x <- e ;; k" := (bind e (fun x => k))
  (at level 61, e at next level, right associativity).

(** An operation of the service: the outbound requests it issued, in
    order, and what it returned or threw. *)
Definition io (A : Type) : Type := (list Request.t * outcome A)%type.

(** [_buildUrl(ip, endpoint)]. *)
Definition _buildUrl (ip endpoint : string) : string :=
  let baseUrl := if includes ":" ip then ip else ip ++ ":8060" in
  "http://" ++ baseUrl ++ endpoint.

(** The record [getMediaPlayer] returns when the request failed. *)
Definition unavailable (message : string) : value :=
  VObject [("available", VBool false); ("error", VString message)].

Section Service.
(** The two libraries the service calls: the HTTP client, which fulfils
    with a reply or rejects with a transport error, and the XML parser. *)
Variable axios : Request.t -> outcome Reply.t.
Variable parseStringPromise : string -> outcome value.

(** [_makeRequest(method, url, data = null)]. *)
Definition _makeRequest (method url : string) (data : option string)
    : io string :=
  let config :=
    {| Request.method := method;
       Request.url := url;
       Request.timeout := 5000%Z;
       Request.data := if truthy data then data else None |} in
  ([config],
   try_catch
     (response <- axios config ;;
      if (400 <=? Reply.status response)%Z
      then Thrown (Error ("Roku API error: " ++
                          number_to_string (Reply.status response) ++ " " ++
                          Reply.statusText response))
      else Returned (Reply.data response))
     (fun error =>
        match code error with
        | Some c =>
            if String.eqb c "ECONNREFUSED"
            then Thrown (Error ("Cannot connect to Roku device at " ++ url ++
                   ". Check IP address and that device is powered on."))
            else if String.eqb c "ETIMEDOUT" || String.eqb c "ENOTFOUND"
            then Thrown (Error
                   "Connection timeout to Roku device. Check network connectivity.")
            else Thrown error
        | None => Thrown error
        end)).

(** The body of [apps.map(app => ({...}))] in [_parseAppsXml]. *)
Definition appEntry (app : value) : outcome App.t :=
  attrs <- member app "$" ;;
  id <- member attrs "id" ;;
  attrs1 <- member app "$" ;;
  version1 <- member attrs1 "version" ;;
  name <- (if truthy_value version1 then Returned version1
           else member app "_") ;;
  attrs2 <- member app "$" ;;
  type <- member attrs2 "type" ;;
  attrs3 <- member app "$" ;;
  version <- member attrs3 "version" ;;
  Returned {| App.id := id; App.name := name;
              App.type := type; App.version := version |}.

(** [_parseAppsXml(xml)]. *)
Definition _parseAppsXml (xml : string) : outcome (list App.t) :=
  try_catch
    (parsed <- parseStringPromise xml ;;
     root <- member parsed "apps" ;;
     entries <- opt_member root "app" ;;
     let apps := if truthy_value entries then entries else VArray [] in
     match apps with
     | VArray items => array_map appEntry items
     | _ => Returned []
     end)
    (fun _ => Returned []).

(** [_parseActiveAppXml(xml)]; [null] is [None]. *)
Definition _parseActiveAppXml (xml : string) : outcome (option App.t) :=
  try_catch
    (parsed <- parseStringPromise xml ;;
     root <- member parsed "active-app" ;;
     entries <- opt_member root "app" ;;
     let app := opt_first entries in
     if negb (truthy_value app) then Returned None
     else
       attrs <- member app "$" ;;
       id <- member attrs "id" ;;
       name <- member app "_" ;;
       attrs1 <- member app "$" ;;
       type <- member attrs1 "type" ;;
       attrs2 <- member app "$" ;;
       version <- member attrs2 "version" ;;
       Returned (Some {| App.id := id; App.name := name;
                         App.type := type; App.version := version |}))
    (fun _ => Returned None).

(** [_parseMediaXml(xml)]. *)
Definition _parseMediaXml (xml : string) : outcome value :=
  try_catch
    (parsed <- parseStringPromise xml ;;
     Returned (if truthy_value parsed then parsed
               else VObject [("available", VBool false)]))
    (fun _ => Returned (VObject [("available", VBool false)])).

(** Sequencing of a request with the continuation that awaits it. *)
Definition andThen {A B : Type} (op : io A) (k : A -> outcome B) : io B :=
  (fst op, bind (snd op) k).

Definition getDeviceInfo (ip : string) : io string :=
  _makeRequest "GET" (_buildUrl ip "/query/device-info") None.

Definition getApps (ip : string) : io (list App.t) :=
  andThen (_makeRequest "GET" (_buildUrl ip "/query/apps") None)
          _parseAppsXml.

Definition getActiveApp (ip : string) : io (option App.t) :=
  andThen (_makeRequest "GET" (_buildUrl ip "/query/active-app") None)
          _parseActiveAppXml.

Definition keypress (ip key : string) : io string :=
  _makeRequest "POST" (_buildUrl ip ("/keypress/" ++ key)) (Some EmptyString).

(** [text(ip, text)]: when the encoding throws, the function is left
    before any request is made. *)
Definition text (ip : string) (text : utf16) : io string :=
  match encodeURIComponent text with
  | Returned encodedText =>
      _makeRequest "POST" (_buildUrl ip ("/keypress/Lit_" ++ encodedText))
                   (Some EmptyString)
  | Thrown error => ([], Thrown error)
  end.


(** [getMediaPlayer(ip)]: the request is awaited inside the [try]; the
    parse is returned from it. *)
Definition getMediaPlayer (ip : string) : io value :=
  let op := _makeRequest "GET" (_buildUrl ip "/query/media-search") None in
  (fst op,
   match snd op with
   | Returned xml => _parseMediaXml xml
   | Thrown error => Returned (unavailable (message error))
   end).
End Service.

(** The array of app entries a parsed reply holds at [apps.app], if the
    reply parsed and holds one. *)
Definition appArray (parsed : outcome value) : option (list value) :=
  match parsed with
  | Returned (VObject fields) =>
      match lookup "apps" fields with
      | Some (VObject fields') =>
          match lookup "app" fields' with
          | Some (VArray items) => Some items
          | _ => None
          end
      | _ => None
      end
  | _ => None
  end.

(** The attribute [k] of an entry's attribute object. *)
Definition attribute (attrs : list (string * value)) (k : string) : value :=
  match lookup k attrs with
  | Some v => v
  | None => VUndefined
  end.

End RokuService.

(* ================================================================== *)
(** ** Sample traffic *)

Module Scenarios.
Import JS.

Definition addressRecord (name ip : string) : Mdns.record :=
  {| Mdns.name := name; Mdns.type := "A"; Mdns.data := Some ip |}.

Definition answer (records : list Mdns.record) : Mdns.response :=
  {| Mdns.answers := Some records; Mdns.additionals := None |}.

(** One packet announcing three hosts. *)
Definition threeAddresses : Mdns.response :=
  answer [addressRecord "den.local" "10.0.0.1";
          addressRecord "hall.local" "10.0.0.2";
          addressRecord "loft.local" "10.0.0.3"].

(** One packet announcing two hosts. *)
Definition twoAddresses : Mdns.response :=
  answer [addressRecord "den.local" "10.0.0.1";
          addressRecord "hall.local" "10.0.0.2"].

(** Two packets naming the same address differently. *)
Definition firstSighting : Mdns.response :=
  answer [addressRecord "living-room.local" "10.0.0.5"].

Definition secondSighting : Mdns.response :=
  answer [addressRecord "bedroom.local" "10.0.0.5"].

(** A service record of a player together with its address record. *)
Definition playerAnnouncement : Mdns.response :=
  {| Mdns.answers :=
       Some [{| Mdns.name := "Roku Ultra.local"; Mdns.type := "PTR";
                Mdns.data := Some "_ecp-server._tcp.local" |}];
     Mdns.additionals :=
       Some [addressRecord "Roku Ultra.local" "10.0.0.5"] |}.

Definition bareDevice (ip : string) (name : string) : Device.t :=
  {| Device.name := Some name; Device.ip := Some ip;
     Device.port := Some 8060%Z; Device.type := Some "roku";
     Device.text := None |}.

(** The reply of a player to [/query/apps], as the XML parser returns it
    for [<apps><app id="12" type="appl" version="4.1.218">Netflix</app></apps>],
    and the same entry inside an [active-app] reply. *)
Definition netflixEntry : value :=
  VObject [("_", VString "Netflix");
           ("$", VObject [("id", VString "12"); ("type", VString "appl");
                          ("version", VString "4.1.218")])].

Definition appsReply : value :=
  VObject [("apps", VObject [("app", VArray [netflixEntry])])].

Definition activeAppReply : value :=
  VObject [("active-app", VObject [("app", VArray [netflixEntry])])].

(** A player that answers every request with [404 Not Found]. *)
Definition notFound (_ : Request.t) : outcome Reply.t :=
  Returned {| Reply.status := 404%Z; Reply.statusText := "Not Found";
              Reply.data := EmptyString |}.

(** A player that answers every request with [200 OK] and the given body. *)
Definition ok (body : string) (_ : Request.t) : outcome Reply.t :=
  Returned {| Reply.status := 200%Z; Reply.statusText := "OK";
              Reply.data := body |}.

(** The code units of a string literal of ASCII characters. *)
Definition unitsOf (s : string) : utf16 :=
  map N_of_ascii (list_ascii_of_string s).

(** A parser that rejects its input, and one that yields a fixed tree. *)
Definition malformed (_ : string) : outcome value :=
  Thrown (Error "Non-whitespace before first tag.").

Definition parsesTo (tree : value) (_ : string) : outcome value :=
  Returned tree.
End Scenarios.

(* ================================================================== *)
(** ** What a run of events announces *)

Module Traffic.
Import JS.

(** The address an [A] record with a non-empty payload announces. *)
Definition addressOf (record : Mdns.record) : option string :=
  if String.eqb (Mdns.type record) "A" && truthy (Mdns.data record)
  then Mdns.data record
  else None.

Definition addressesAmong (records : list Mdns.record) : list string :=
  flat_map (fun r => match addressOf r with Some a => [a] | None => [] end)
           records.

(** The addresses announced by the answer and additional records of a
    packet, and by the packets of a run of events. *)
Definition addressesIn (response : Mdns.response) : list string :=
  addressesAmong (DeviceDiscovery.allRecordsOf response).

Definition addressesSeen (events : list DeviceDiscovery.event) : list string :=
  flat_map (fun e => match e with
                     | DeviceDiscovery.Response r => addressesIn r
                     | _ => []
                     end) events.

(** A record that can serve as the companion of a service record named
    [name]: the test of the first [find] in [_extractDeviceInfo]. *)
Definition companionOf (name : string) (r : Mdns.record) : bool :=
  String.eqb (Mdns.type r) "A" && String.eqb (Mdns.name r) name.

(** The shape of every descriptor a call hands out. *)
Definition wellFormed (d : Descriptor.t) : Prop :=
  exists a,
    a <> EmptyString /\
    Descriptor.ip d = Some a /\
    Descriptor.port d = 8060%Z /\
    Descriptor.type d = "roku" /\
    Descriptor.url d = "http://" ++ a ++ ":8060" /\
    Descriptor.name d <> EmptyString.

End Traffic.

(* ================================================================== *)
(** ** Reading parsed replies and escaped text *)

Module Replies.
Import JS.

(** The attribute object [$] of an entry, when the entry is an element
    that carries attributes. *)
Definition attributesOf (item : value) : option (list (string * value)) :=
  match item with
  | VObject fields =>
      match lookup "$" fields with
      | Some (VObject attrs) => Some attrs
      | _ => None
      end
  | _ => None
  end.

(** The text [_] of an element entry. *)
Definition textOf (item : value) : value :=
  match item with
  | VObject fields => RokuService.attribute fields "_"
  | _ => VUndefined
  end.

(** The request [_makeRequest] hands to the HTTP client. *)
Definition requestFor (method url : string) (data : option string)
    : Request.t :=
  {| Request.method := method;
     Request.url := url;
     Request.timeout := 5000%Z;
     Request.data := if truthy data then data else None |}.

End Replies.

Module Escapes.
Import JS.

(** *** URL-encoding, stated without reference to the encoder

    The vocabulary of percent-encoding as a reader of a url sees it: the
    characters that may stand for themselves, the value of a hexadecimal
    digit, the escaped form of a sequence of octets, and the reading of
    UTF-16 and UTF-8. *)

Definition literalAlphabet : string :=
  "ABCDEFGHIJKLMNOPQRSTUVWXYZabcdefghijklmnopqrstuvwxyz0123456789-_.!~*'()".

Definition isLiteral (c : ascii) : bool :=
  existsb (Ascii.eqb c) (list_ascii_of_string literalAlphabet).

(** The value of an upper-case hexadecimal digit. *)
Definition hexValue (c : ascii) : option N :=
  let n := N_of_ascii c in
  (if (48 <=? n) && (n <=? 57) then Some (n - 48)
   else if (65 <=? n) && (n <=? 70) then Some (n - 55)
   else None)%N.

(** [urlEncoded octets e]: [e] is the percent-encoding of [octets] in
    which exactly the literal characters are left unescaped and every
    other octet is written [%XX] with upper-case digits. *)
Inductive urlEncoded : list N -> string -> Prop :=
| encoded_nil : urlEncoded [] EmptyString
| encoded_literal (o : N) (rest : list N) (e : string) :
    (o < 128)%N ->
    isLiteral (ascii_of_N o) = true ->
    urlEncoded rest e ->
    urlEncoded (o :: rest) (String (ascii_of_N o) e)
| encoded_escape (o : N) (rest : list N) (e : string) (h l : ascii)
                 (hi lo : N) :
    (o < 256)%N ->
    ((o <? 128)%N && isLiteral (ascii_of_N o) = false) ->
    hexValue h = Some hi ->
    hexValue l = Some lo ->
    o = (16 * hi + lo)%N ->
    urlEncoded rest e ->
    urlEncoded (o :: rest) (String "%" (String h (String l e))).

(** A sequence of 16-bit code units. *)
Definition isString (s : utf16) : bool :=
  forallb (fun u => (u <? 65536)%N) s.

(** The code points a UTF-16 string spells, [None] when a surrogate has
    no partner. *)
Fixpoint scalarValues (s : utf16) : option (list N) :=
  match s with
  | [] => Some []
  | c :: rest =>
      if ((55296 <=? c) && (c <=? 56319))%N
      then
        match rest with
        | d :: rest' =>
            if ((56320 <=? d) && (d <=? 57343))%N
            then option_map
                   (cons (65536 + 1024 * (c - 55296) + (d - 56320))%N)
                   (scalarValues rest')
            else None
        | [] => None
        end
      else if ((56320 <=? c) && (c <=? 57343))%N
      then None
      else option_map (cons c) (scalarValues rest)
  end.

Definition continuation (o : N) : bool := ((128 <=? o) && (o <? 192))%N.

(** The code points a sequence of octets spells in UTF-8, shortest forms
    only; [None] when the octets are not UTF-8. *)
Fixpoint utf8Decode (octets : list N) : option (list N) :=
  match octets with
  | [] => Some []
  | a :: t1 =>
      if (a <? 128)%N then option_map (cons a) (utf8Decode t1)
      else
        match t1 with
        | [] => None
        | b :: t2 =>
            if ((192 <=? a) && (a <? 224))%N
            then
              let cp := (64 * (a - 192) + (b - 128))%N in
              if continuation b && (128 <=? cp)%N
              then option_map (cons cp) (utf8Decode t2)
              else None
            else
              match t2 with
              | [] => None
              | c :: t3 =>
                  if ((224 <=? a) && (a <? 240))%N
                  then
                    let cp := (4096 * (a - 224) + 64 * (b - 128) + (c - 128))%N in
                    if continuation b && continuation c && (2048 <=? cp)%N
                    then option_map (cons cp) (utf8Decode t3)
                    else None
                  else
                    match t3 with
                    | [] => None
                    | d :: t4 =>
                        let cp := (262144 * (a - 240) + 4096 * (b - 128) +
                                   64 * (c - 128) + (d - 128))%N in
                        if ((240 <=? a) && (a <? 248))%N &&
                           continuation b && continuation c &&
                           continuation d && (65536 <=? cp)%N
                        then option_map (cons cp) (utf8Decode t4)
                        else None
                    end
              end
        end
  end.

(** The characters that can occur in an encoded path segment. *)
Definition segmentAlphabet : string :=
  "ABCDEFGHIJKLMNOPQRSTUVWXYZabcdefghijklmnopqrstuvwxyz0123456789-_.!~*'()%".

Definition inSegmentAlphabet (c : ascii) : bool :=
  existsb (Ascii.eqb c) (list_ascii_of_string segmentAlphabet).

End Escapes.

(* ================================================================== *)
(** ** The HTTP routes in front of the service *)

Module Server.
Import JS RokuService.

(** The JSON a route answers with: [{success: true, data}],
    [{success: true}] or [{success: false, error}]. *)
Inductive body (A : Type) : Type :=
| Success (data : A)
| Done
| Failure (error : string).
Arguments Success {A} data.
Arguments Done {A}.
Arguments Failure {A} error.

Record response (A : Type) : Type := {
  status : Z;
  json : body A
}.
Arguments status {A} r.
Arguments json {A} r.

(** What a handler did: the requests that went out to the device and the
    response it sent. *)
Definition handled (A : Type) : Type := (list Request.t * response A)%type.

(** The [try { ... res.json(...) } catch (error) { res.status(500)... }]
    frame every handler shares. *)
Definition respond {A B : Type} (op : io A) (onSuccess : A -> body B)
    : handled B :=
  (fst op,
   match snd op with
   | Returned a => {| status := 200%Z; json := onSuccess a |}
   | Thrown error => {| status := 500%Z; json := Failure (message error) |}
   end).

(** The early [return res.status(400).json(...)] of the command routes. *)
Definition reject {B : Type} (error : string) : handled B :=
  ([], {| status := 400%Z; json := Failure error |}).

Section Routes.
Variable axios : Request.t -> outcome Reply.t.
Variable parseStringPromise : string -> outcome value.

(** [GET /api/device/:ip/info]. *)
Definition infoRoute (ip : string) : handled string :=
  respond (getDeviceInfo axios ip) Success.

(** [GET /api/device/:ip/apps]. *)
Definition appsRoute (ip : string) : handled (list App.t) :=
  respond (getApps axios parseStringPromise ip) Success.

(** [GET /api/device/:ip/active]. *)
Definition activeRoute (ip : string) : handled (option App.t) :=
  respond (getActiveApp axios parseStringPromise ip) Success.

(** The [TypeError] of [const { member } = req.body] when no body was
    parsed. *)
Definition noBody (member : string) : error :=
  TypeError ("Cannot destructure property '" ++ member ++
             "' of 'req.body' as it is undefined.").

(** [POST /api/device/:ip/keypress].  [body] is [req.body]: [None] when
    no body was parsed, otherwise its member [key], a string when it is
    present. *)
Definition keypressRoute (ip : string) (body : option (option string))
    : handled value :=
  match body with
  | None => respond (A := string) ([], Thrown (noBody "key")) (fun _ => Done)
  | Some key =>
      if negb (truthy key) then reject "Key is required"
      else respond (keypress axios ip (template key)) (fun _ => Done)
  end.



(** [GET /api/device/:ip/media]. *)
Definition mediaRoute (ip : string) : handled value :=
  respond (getMediaPlayer axios parseStringPromise ip) Success.
End Routes.

End Server.

(* ================================================================== *)
(** * Properties *)

(** ** The insertion-ordered map *)

Section MapFacts.
Import JS.
Context {V : Type}.
Implicit Types (m : Map.t V) (k : string) (v : V).

Lemma map_get_set_same k v m : Map.get k (Map.set k v m) = Some v.
Proof.
  induction m as [|[k' v'] m IH]; simpl.
  - now rewrite String.eqb_refl.
  - destruct (String.eqb k k') eqn:E; simpl; rewrite E; auto.
Qed.

Lemma map_get_set_other k k' v m :
  k <> k' -> Map.get k' (Map.set k v m) = Map.get k' m.
Proof.
  intros Hne. induction m as [|[k0 v0] m IH]; simpl.
  - destruct (String.eqb k' k) eqn:E; auto.
    apply String.eqb_eq in E. congruence.
  - destruct (String.eqb k k0) eqn:E; simpl.
    + apply String.eqb_eq in E. subst k0.
      destruct (String.eqb k' k) eqn:E'; auto.
      apply String.eqb_eq in E'. congruence.
    + now rewrite IH.
Qed.

Lemma map_has_keys k m : Map.has k m = true <-> In k (Map.keys m).
Proof.
  unfold Map.has. induction m as [|[k' v'] m IH]; simpl.
  - split; [discriminate | tauto].
  - destruct (String.eqb k k') eqn:E.
    + apply String.eqb_eq in E. subst. tauto.
    + apply String.eqb_neq in E. split.
      * intros H. right. now apply IH.
      * intros [H | H]; [congruence | now apply IH].
Qed.

Lemma map_set_entries k v m k' v' :
  In (k', v') (Map.set k v m) -> (k' = k /\ v' = v) \/ In (k', v') m.
Proof.
  induction m as [|[k0 v0] m IH]; simpl.
  - intros [H | []]. inversion H. auto.
  - destruct (String.eqb k k0) eqn:E; simpl.
    + apply String.eqb_eq in E. subst k0.
      intros [H | H]; [inversion H; auto | auto].
    + intros [H | H]; [auto | destruct (IH H); auto].
Qed.

Lemma map_set_keys k v m :
  Map.keys (Map.set k v m) =
  if Map.has k m then Map.keys m else (Map.keys m ++ [k])%list.
Proof.
  unfold Map.has. induction m as [|[k0 v0] m IH]; simpl; auto.
  destruct (String.eqb k k0) eqn:E; simpl; auto.
  rewrite IH. now destruct (Map.get k m).
Qed.

Lemma map_set_size k v m :
  Map.size (Map.set k v m) =
  if Map.has k m then Map.size m else S (Map.size m).
Proof.
  unfold Map.size.
  rewrite <- (length_map fst (Map.set k v m)), <- (length_map fst m).
  fold (Map.keys (Map.set k v m)). fold (Map.keys m).
  rewrite map_set_keys. destruct (Map.has k m); auto.
  rewrite length_app. simpl. lia.
Qed.

Lemma map_set_NoDup k v m :
  NoDup (Map.keys m) -> NoDup (Map.keys (Map.set k v m)).
Proof.
  intros Hnd. rewrite map_set_keys.
  destruct (Map.has k m) eqn:E; auto.
  apply NoDup_rev in Hnd.
  rewrite <- (rev_involutive (Map.keys m ++ [k])%list).
  apply NoDup_rev. rewrite rev_app_distr. simpl.
  constructor; auto.
  rewrite <- in_rev. intros Hin.
  apply map_has_keys in Hin. congruence.
Qed.

Lemma firstn_NoDup {A : Type} (n : nat) (l : list A) :
  NoDup l -> NoDup (firstn n l).
Proof.
  intros H. rewrite <- (firstn_skipn n l) in H.
  now apply NoDup_app_remove_r in H.
Qed.

Lemma slice0_NoDup {A : Type} (l : list A) (e : number) :
  NoDup l -> NoDup (slice0 l e).
Proof.
  intros H. destruct e as [|z]; simpl; [constructor|].
  destruct (z <? 0)%Z; now apply firstn_NoDup.
Qed.

Lemma slice0_length {A : Type} (l : list A) (z : Z) :
  (0 <= z)%Z -> (Z.of_nat (List.length (slice0 l (Num z))) <= z)%Z.
Proof.
  intros Hz. simpl. destruct (z <? 0)%Z eqn:E; [lia|].
  rewrite length_firstn. lia.
Qed.

Lemma nonempty_or_empty {A : Type} (l : list A) :
  (if (0 <? List.length l)%nat then l else []) = l.
Proof. now destruct l. Qed.
End MapFacts.

(** ** Discovery: the session map stays keyed by address *)

Section DiscoveryInvariant.
Import JS DeviceDiscovery.

Lemma wellKeyed_empty : wellKeyed Map.empty.
Proof. split; [constructor | intros k d []]. Qed.

Lemma wellKeyed_set a device m :
  wellKeyed m ->
  Device.ip device = Some a ->
  Device.type device = Some "roku" ->
  Device.port device = Some 8060%Z ->
  wellKeyed (Map.set a device m).
Proof.
  intros [Hnd Hent] Hip Hty Hpo. split.
  - now apply map_set_NoDup.
  - intros k d Hin. apply map_set_entries in Hin.
    destruct Hin as [[-> ->] | Hin]; auto.
Qed.

Lemma extract_fields record allRecords device :
  _extractDeviceInfo record allRecords = Some device ->
  truthy (Device.ip device) = true /\
  Device.name device = Some (Mdns.name record) /\
  Device.type device = Some "roku" /\
  Device.port device = Some 8060%Z.
Proof.
  unfold _extractDeviceInfo. cbv zeta. cbn [Device.ip].
  destruct (truthy _) eqn:E; [|discriminate].
  intros H. inversion H; subst; clear H. cbn. auto.
Qed.

Lemma serviceStep_wellKeyed allRecords m record :
  wellKeyed m -> wellKeyed (serviceStep allRecords m record).
Proof.
  intros Hm. unfold serviceStep.
  destruct (_ && _); auto.
  destruct (_extractDeviceInfo record allRecords) as [device|] eqn:E; auto.
  apply extract_fields in E. destruct E as (_ & _ & Hty & Hpo).
  destruct (Device.ip device) as [a|] eqn:Hip; auto.
  destruct (truthy (Some a)); auto.
  now apply wellKeyed_set.
Qed.

Lemma addressStep_wellKeyed m record :
  wellKeyed m -> wellKeyed (addressStep m record).
Proof.
  intros Hm. unfold addressStep.
  destruct (Mdns.data record) as [a|]; auto.
  destruct (_ && _); auto. cbv zeta.
  destruct (negb _); auto.
  now apply wellKeyed_set.
Qed.

Lemma processRecord_wellKeyed allRecords m record :
  wellKeyed m -> wellKeyed (processRecord allRecords m record).
Proof.
  intros Hm. unfold processRecord.
  now apply addressStep_wellKeyed, serviceStep_wellKeyed.
Qed.

Lemma processResponse_wellKeyed response m :
  wellKeyed m -> wellKeyed (_processResponse response m).
Proof.
  unfold _processResponse. cbv zeta.
  generalize (allRecordsOf response) at 1 as allRecords.
  generalize (allRecordsOf response) as todo.
  intros todo. revert m.
  induction todo as [|r todo IH]; intros m allRecords Hm; simpl; auto.
  apply IH. now apply processRecord_wellKeyed.
Qed.

Lemma wellKeyed_get a device m :
  wellKeyed m -> Map.get a m = Some device ->
  Device.ip device = Some a /\ Device.type device = Some "roku" /\
  Device.port device = Some 8060%Z.
Proof.
  intros [_ Hent] Hget. apply Hent.
  induction m as [|[k v] m IH]; simpl in *; [discriminate|].
  destruct (String.eqb a k) eqn:E.
  - apply String.eqb_eq in E. inversion Hget. subst. auto.
  - right. apply IH; [|assumption].
    intros k' d' Hin. apply Hent. now right.
Qed.

Lemma wellKeyed_ips m :
  wellKeyed m ->
  map Descriptor.ip (map _normalizeDevice (Map.values m)) =
  map Some (Map.keys m).
Proof.
  intros [_ Hent]. unfold Map.values, Map.keys.
  rewrite !map_map. apply map_ext_in.
  intros [k d] Hin. simpl. now destruct (Hent k d Hin).
Qed.

Lemma normalized_slice_ips (m : Map.t Device.t) (e : number) :
  map Descriptor.ip (map _normalizeDevice (slice0 (Map.values m) e)) =
  slice0 (map Descriptor.ip (map _normalizeDevice (Map.values m))) e.
Proof.
  destruct e as [|z]; simpl; auto.
  rewrite !length_map.
  destruct (z <? 0)%Z; now rewrite !firstn_map.
Qed.

Lemma wellKeyed_NoDup_ips m :
  wellKeyed m ->
  NoDup (map Descriptor.ip (map _normalizeDevice (Map.values m))).
Proof.
  intros Hm. rewrite (wellKeyed_ips m Hm). destruct Hm as [Hnd _].
  apply Injective_map_NoDup; auto.
  intros x y H. now inversion H.
Qed.

Variable maxDevices : number.

(** An event that is not delivered leaves the session as it is. *)
Local Ltac undelivered Hm Hr :=
  split; [exact Hm|];
  match goal with
  | |- match result ?s with _ => _ end =>
      destruct (result s); try exact Hr; destruct Hr; discriminate
  end.

Lemma deliver_sessionInv s e :
  sessionInv s -> sessionInv (deliver maxDevices s e).
Proof.
  intros [Hm Hr]. destruct e as [r| |err]; simpl.
  - destruct (listening s) eqn:El; [|undelivered Hm Hr].
    unfold onResponse. destruct (ge _ _).
    + split; simpl; [assumption|].
      destruct (result s); simpl; auto. now apply wellKeyed_NoDup_ips.
    + split; simpl; [now apply processResponse_wellKeyed|].
      destruct (result s); auto. now rewrite El.
  - destruct (timerArmed s) eqn:Et; [|undelivered Hm Hr].
    split; simpl; [assumption|].
    destruct (result s); simpl; auto.
    rewrite normalized_slice_ips. apply slice0_NoDup.
    now apply wellKeyed_NoDup_ips.
  - destruct (listening s) eqn:El; [|undelivered Hm Hr].
    split; simpl; [assumption|].
    destruct (result s); simpl; auto.
    rewrite nonempty_or_empty. now apply wellKeyed_NoDup_ips.
Qed.

Lemma discover_from_sessionInv events s :
  sessionInv s -> sessionInv (fold_left (deliver maxDevices) events s).
Proof.
  revert s. induction events as [|e events IH]; intros s Hs; simpl; auto.
  now apply IH, deliver_sessionInv.
Qed.

Lemma discover_sessionInv events : sessionInv (discover maxDevices events).
Proof.
  apply discover_from_sessionInv. split; simpl; auto.
  apply wellKeyed_empty.
Qed.

Lemma discover_snoc events e :
  discover maxDevices (events ++ [e]) =
  deliver maxDevices (discover maxDevices events) e.
Proof. unfold discover. now rewrite fold_left_app. Qed.
End DiscoveryInvariant.

(** ** Discovery: what a call resolves with *)

Section DiscoveryResults.
Import JS DeviceDiscovery Scenarios.

(** The deadline path truncates to the cap. *)
Lemma onTimer_bounded (z : Z) (s : session) devices :
  (0 <= z)%Z ->
  result s = Pending ->
  result (onTimer (Num z) s) = Fulfilled devices ->
  (Z.of_nat (List.length devices) <= z)%Z.
Proof.
  intros Hz Hp. unfold onTimer. cbn [result]. rewrite Hp. cbn [resolve].
  intros H. inversion H; subst; clear H.
  rewrite length_map. now apply slice0_length.
Qed.

(** C1 (the code departs from the claim).  With [maxDevices = 2], a packet
    carrying three address records followed by a listener error, or by
    any further packet, resolves the call with three descriptors: only
    the deadline path cuts the list down to the cap. *)
Theorem cap_and_error_paths_exceed_maxDevices :
  (exists devices,
      result (discover (Num 2) [Response threeAddresses;
                                ListenerError "EADDRINUSE"])
      = Fulfilled devices /\ List.length devices = 3%nat) /\
  (exists devices,
      result (discover (Num 2) [Response threeAddresses;
                                Response firstSighting])
      = Fulfilled devices /\ List.length devices = 3%nat) /\
  (exists devices,
      result (discover (Num 2) [Response threeAddresses; Timeout])
      = Fulfilled devices /\ List.length devices = 2%nat).
Proof.
  split; [|split]; eexists; split; reflexivity.
Qed.

(** C2 (the code departs from the claim).  With [maxDevices = 2], after
    the packet whose inserts bring the map to two addresses the call is
    still pending, with the timer armed and the socket open; it is the
    arrival of a further packet, or the deadline, that resolves it. *)
Theorem cap_insert_leaves_call_pending :
  (let s := discover (Num 2) [Response twoAddresses] in
   Map.size (discoveredMap s) = 2%nat /\
   result s = Pending /\ timerArmed s = true /\ listening s = true) /\
  result (discover (Num 2) [Response twoAddresses; Response firstSighting])
  = Fulfilled (map _normalizeDevice
                   [bareDevice "10.0.0.1" "den.local";
                    bareDevice "10.0.0.2" "hall.local"]) /\
  result (discover (Num 2) [Response twoAddresses; Timeout])
  = Fulfilled (map _normalizeDevice
                   [bareDevice "10.0.0.1" "den.local";
                    bareDevice "10.0.0.2" "hall.local"]).
Proof. repeat split; reflexivity. Qed.

(** C5.  No run of events leaves the call rejected, and a listener error
    delivered to a pending call resolves it with every descriptor
    collected so far. *)
Theorem discover_never_rejects maxDevices events error :
  (forall reason, result (discover maxDevices events) <> Rejected reason) /\
  (result (discover maxDevices events) = Pending ->
   result (discover maxDevices (events ++ [ListenerError error])) =
   Fulfilled (map _normalizeDevice
                  (Map.values (discoveredMap (discover maxDevices events))))).
Proof.
  pose proof (discover_sessionInv maxDevices events) as [_ Hinv].
  split.
  - intros reason Hr. now rewrite Hr in Hinv.
  - intros Hp. rewrite Hp in Hinv. destruct Hinv as [_ Hl].
    rewrite discover_snoc. simpl. rewrite Hl. unfold onError.
    cbn [result]. rewrite Hp, nonempty_or_empty. reflexivity.
Qed.

Lemma discover_never_rejects_witness :
  result (discover (Num 10) [ListenerError "EADDRINUSE"]) = Fulfilled [] /\
  result (discover (Num 10) [Response firstSighting; ListenerError "EADDRINUSE"])
  = Fulfilled [_normalizeDevice (bareDevice "10.0.0.5" "living-room.local")].
Proof.
  split.
  - exact (proj2 (discover_never_rejects (Num 10) [] "EADDRINUSE") eq_refl).
  - exact (proj2 (discover_never_rejects (Num 10) [Response firstSighting]
                    "EADDRINUSE") eq_refl).
Defined.

(** C7.  Whatever the events and the cap, the descriptors a call resolves
    with carry pairwise distinct addresses. *)
Theorem discover_addresses_distinct maxDevices events devices :
  result (discover maxDevices events) = Fulfilled devices ->
  NoDup (map Descriptor.ip devices).
Proof.
  intros Hr.
  pose proof (discover_sessionInv maxDevices events) as [_ Hinv].
  now rewrite Hr in Hinv.
Qed.

Lemma discover_addresses_distinct_witness :
  NoDup [Some "10.0.0.5"; Some "10.0.0.1"; Some "10.0.0.2"; Some "10.0.0.3"].
Proof.
  exact (discover_addresses_distinct (Num 3)
           [Response firstSighting; Response secondSighting;
            Response threeAddresses; Response twoAddresses]
           _ eq_refl).
Defined.
End DiscoveryResults.

(** ** Discovery: one observation against the session map *)

Section Observations.
Import JS DeviceDiscovery Scenarios.

Lemma map_has_set_same {V : Type} k (v : V) m :
  Map.has k (Map.set k v m) = true.
Proof. unfold Map.has. now rewrite map_get_set_same. Qed.

Lemma truthy_some_nonempty a : truthy (Some a) = true <-> a <> EmptyString.
Proof. destruct a; simpl; split; congruence. Qed.

(** C3 (as stated, refuted).  A second address record for an address the
    map already holds leaves the first descriptor in place. *)
Lemma later_address_record_does_not_replace :
  let m1 := _processResponse firstSighting Map.empty in
  let m2 := _processResponse secondSighting m1 in
  Map.get "10.0.0.5" m1 = Some (bareDevice "10.0.0.5" "living-room.local") /\
  Map.get "10.0.0.5" m2 = Some (bareDevice "10.0.0.5" "living-room.local") /\
  Map.get "10.0.0.5" m2 <> Some (bareDevice "10.0.0.5" "bedroom.local").
Proof. repeat split; try reflexivity. discriminate. Qed.

(** C3 (amended).  A descriptor built from a record whose name contains
    ["Roku"] takes the place of whatever the map held under its address;
    a bare address record is stored only when its address is new, and is
    dropped when the address is already present. *)
Theorem observation_overwrite_policy allRecords m record a :
  (forall device,
      includes "Roku" (Mdns.name record) = true ->
      _extractDeviceInfo record allRecords = Some device ->
      Device.ip device = Some a ->
      Map.get a (processRecord allRecords m record) = Some device) /\
  (includes "Roku" (Mdns.name record) = false ->
   Mdns.type record = "A" ->
   Mdns.data record = Some a ->
   a <> EmptyString ->
   (Map.has a m = true -> processRecord allRecords m record = m) /\
   (Map.has a m = false ->
    Map.get a (processRecord allRecords m record) =
    Some (bareDevice a (Mdns.name record)))).
Proof.
  split.
  - intros device Hroku Hex Hip. unfold processRecord.
    assert (Hname : truthy (Some (Mdns.name record)) = true).
    { apply truthy_some_nonempty. intros E. rewrite E in Hroku.
      discriminate. }
    assert (Ha : truthy (Some a) = true).
    { apply extract_fields in Hex. destruct Hex as [Ht _].
      now rewrite Hip in Ht. }
    unfold serviceStep. rewrite Hname, Hroku, Hex, Hip, Ha. cbn [andb].
    unfold addressStep.
    destruct (Mdns.data record) as [b|]; [|apply map_get_set_same].
    destruct (_ && _); [|apply map_get_set_same]. cbv zeta.
    destruct (String.eqb a b) eqn:E.
    + apply String.eqb_eq in E. subst b.
      rewrite map_has_set_same. cbn [negb]. apply map_get_set_same.
    + apply String.eqb_neq in E.
      destruct (negb _); [|apply map_get_set_same].
      rewrite map_get_set_other by congruence. apply map_get_set_same.
  - intros Hroku Hty Hdata Hne. unfold processRecord, serviceStep.
    rewrite Hroku, andb_false_r. unfold addressStep.
    rewrite Hdata, Hty. cbn [String.eqb Ascii.eqb Bool.eqb].
    apply truthy_some_nonempty in Hne. rewrite Hne. cbn [andb]. cbv zeta.
    split; intros Hhas; rewrite Hhas; cbn [negb]; auto.
    apply map_get_set_same.
Qed.

Lemma observation_overwrite_policy_witness :
  Map.get "10.0.0.5"
    (processRecord (allRecordsOf playerAnnouncement)
       [("10.0.0.5", bareDevice "10.0.0.5" "living-room.local")]
       {| Mdns.name := "Roku Ultra.local"; Mdns.type := "PTR";
          Mdns.data := Some "_ecp-server._tcp.local" |})
  = Some (bareDevice "10.0.0.5" "Roku Ultra.local") /\
  processRecord [] [("10.0.0.5", bareDevice "10.0.0.5" "living-room.local")]
    (addressRecord "bedroom.local" "10.0.0.5")
  = [("10.0.0.5", bareDevice "10.0.0.5" "living-room.local")] /\
  Map.get "10.0.0.5"
    (processRecord [] Map.empty (addressRecord "bedroom.local" "10.0.0.5"))
  = Some (bareDevice "10.0.0.5" "bedroom.local").
Proof.
  split; [|split].
  - apply (proj1 (observation_overwrite_policy _ _ _ "10.0.0.5"));
      reflexivity.
  - apply (proj2 (observation_overwrite_policy [] _
                    (addressRecord "bedroom.local" "10.0.0.5") "10.0.0.5"));
      try reflexivity. discriminate.
  - apply (proj2 (observation_overwrite_policy [] Map.empty
                    (addressRecord "bedroom.local" "10.0.0.5") "10.0.0.5"));
      try reflexivity. discriminate.
Defined.

Lemma stored_fields device :
  stored device ->
  exists a, Device.ip device = Some a /\ Device.type device = Some "roku" /\
            Device.port device = Some 8060%Z.
Proof.
  intros (maxDevices & events & a & Hget). exists a.
  pose proof (discover_sessionInv maxDevices events) as [Hm _].
  exact (wellKeyed_get _ _ _ Hm Hget).
Qed.

(** C6.  [_normalizeDevice] keeps the address, substitutes
    ["Unknown Roku Device"] for a missing name and [8060] for a missing
    port, builds the url from the address and that port, and yields the
    kind ["roku"] for every descriptor a session stores; a descriptor at
    ["10.0.0.5"] without a port gets port [8060] and url
    ["http://10.0.0.5:8060"]. *)
Theorem normalizeDevice_spec (device : Device.t) (a : string) :
  Device.ip device = Some a ->
  let d := _normalizeDevice device in
  Descriptor.ip d = Some a /\
  Descriptor.name d =
    match Device.name device with
    | Some (String c rest) => String c rest
    | _ => "Unknown Roku Device"
    end /\
  Descriptor.port d =
    match Device.port device with
    | None | Some 0%Z => 8060%Z
    | Some p => p
    end /\
  Descriptor.url d =
    "http://" ++ a ++ ":" ++ number_to_string (Descriptor.port d) /\
  (stored device -> Descriptor.type d = "roku") /\
  (a = "10.0.0.5" -> Device.port device = None ->
   Descriptor.port d = 8060%Z /\ Descriptor.url d = "http://10.0.0.5:8060").
Proof.
  intros Hip d. subst d. unfold _normalizeDevice. cbn.
  rewrite Hip. cbn [template].
  split; [reflexivity|]. split; [|split; [|split; [reflexivity|split]]].
  - destruct (Device.name device) as [[|c rest]|]; reflexivity.
  - destruct (Device.port device) as [[|p|p]|]; reflexivity.
  - intros Hs. apply stored_fields in Hs.
    destruct Hs as (_ & _ & Hty & _). now rewrite Hty.
  - intros Ha Hport. subst a. rewrite Hport. split; reflexivity.
Qed.

Lemma normalizeDevice_spec_witness :
  (let d := _normalizeDevice
              {| Device.name := None; Device.ip := Some "10.0.0.5";
                 Device.port := None; Device.type := None;
                 Device.text := None |} in
   Descriptor.name d = "Unknown Roku Device" /\
   Descriptor.port d = 8060%Z /\
   Descriptor.url d = "http://10.0.0.5:8060") /\
  Descriptor.type
    (_normalizeDevice (bareDevice "10.0.0.5" "living-room.local")) = "roku".
Proof.
  split.
  - destruct (normalizeDevice_spec
                {| Device.name := None; Device.ip := Some "10.0.0.5";
                   Device.port := None; Device.type := None;
                   Device.text := None |} "10.0.0.5" eq_refl)
      as (_ & Hn & _ & _ & _ & Hex).
    destruct (Hex eq_refl eq_refl) as [Hp Hu].
    split; [exact Hn | split; [exact Hp | exact Hu]].
  - destruct (normalizeDevice_spec
                (bareDevice "10.0.0.5" "living-room.local") "10.0.0.5"
                eq_refl) as (_ & _ & _ & _ & Hk & _).
    apply Hk. exists (Num 10), [Response firstSighting], "10.0.0.5".
    reflexivity.
Defined.
End Observations.

(** ** The ECP translator *)

Section Strings.
Import JS.

Lemma append_assoc (a b c : string) : (a ++ b) ++ c = a ++ (b ++ c).
Proof. induction a as [|x a IH]; simpl; [reflexivity | now rewrite IH]. Qed.

Lemma prefix_append (needle rest : string) :
  prefix needle (needle ++ rest) = true.
Proof.
  induction needle as [|x needle IH]; simpl.
  - now destruct rest.
  - destruct (ascii_dec x x); [assumption | congruence].
Qed.

Lemma includes_unfold (needle hay : string) :
  includes needle hay =
  prefix needle hay ||
  match hay with
  | EmptyString => false
  | String _ rest => includes needle rest
  end.
Proof. destruct hay; reflexivity. Qed.

Lemma includes_append (needle before after : string) :
  includes needle (before ++ needle ++ after) = true.
Proof.
  induction before as [|x before IH].
  - simpl. rewrite includes_unfold, prefix_append. reflexivity.
  - rewrite includes_unfold. simpl. fold (includes needle).
    rewrite IH. apply orb_true_r.
Qed.
End Strings.

(** ** The escaping of [encodeURIComponent] against URL-encoding *)

Section Encoding.
Import JS Escapes.

Ltac Zify.zify_post_hook ::= Z.to_euclidean_division_equations.

(** Decide the numeric tests of a goal and drop the impossible cases. *)
Local Ltac tests :=
  repeat match goal with
         | |- context [(?x <? ?y)%N] =>
             destruct (N.ltb_spec x y); try lia
         | |- context [(?x <=? ?y)%N] =>
             destruct (N.leb_spec x y); try lia
         end.

Lemma unreserved_isLiteral c : unreserved c = isLiteral c.
Proof. destruct c as [[] [] [] [] [] [] [] []]; reflexivity. Qed.

Lemma hexValue_hexDigit n :
  (n < 16)%nat -> hexValue (hexDigit n) = Some (N.of_nat n).
Proof.
  intros Hn. do 16 (destruct n as [|n]; [reflexivity|]). lia.
Qed.

Lemma escape_encoded octets rest e :
  Forall (fun o => (o < 256)%N /\
                   (o <? 128)%N && isLiteral (ascii_of_N o) = false) octets ->
  urlEncoded rest e ->
  urlEncoded (octets ++ rest) (percentEscape octets ++ e).
Proof.
  intros Hall Hrest. induction Hall as [|o octets [Hb Hl] _ IH]; [exact Hrest|].
  cbn [app percentEscape append].
  apply (encoded_escape o _ _ _ _ (o / 16)%N (o mod 16)%N); auto.
  - rewrite hexValue_hexDigit by lia. f_equal. lia.
  - rewrite hexValue_hexDigit by lia. f_equal. lia.
  - lia.
Qed.

Lemma utf8Octets_escapable cp :
  (cp < 1114112)%N ->
  unescaped cp = false ->
  Forall (fun o => (o < 256)%N /\
                   (o <? 128)%N && isLiteral (ascii_of_N o) = false)
         (utf8Octets cp).
Proof.
  intros Hcp Hun. unfold utf8Octets.
  destruct (N.ltb_spec cp 128).
  - constructor; [|constructor]. split; [lia|].
    unfold unescaped in Hun. now rewrite <- unreserved_isLiteral.
  - assert (Hhigh : forall o, (128 <= o < 256)%N ->
               (o < 256)%N /\
               (o <? 128)%N && isLiteral (ascii_of_N o) = false).
    { intros o Ho. split; [lia|].
      destruct (N.ltb_spec o 128); [lia | reflexivity]. }
    destruct (N.ltb_spec cp 2048); [|destruct (N.ltb_spec cp 65536)];
      repeat constructor; try apply Hhigh; lia.
Qed.

Lemma utf8Decode_octets cp rest :
  (cp < 1114112)%N ->
  utf8Decode (utf8Octets cp ++ rest) = option_map (cons cp) (utf8Decode rest).
Proof.
  intros Hcp. unfold utf8Octets.
  destruct (N.ltb_spec cp 128) as [H1|H1].
  - cbn [app utf8Decode]. tests. reflexivity.
  - destruct (N.ltb_spec cp 2048) as [H2|H2].
    + cbn [app utf8Decode]. unfold continuation. tests. cbn [andb].
      do 2 f_equal. lia.
    + destruct (N.ltb_spec cp 65536) as [H3|H3].
      * cbn [app utf8Decode]. unfold continuation. tests. cbn [andb].
        do 2 f_equal. lia.
      * cbn [app utf8Decode]. unfold continuation. tests. cbn [andb].
        do 2 f_equal. lia.
Qed.

Lemma option_map_some {A B : Type} (f : A -> B) (o : option A) y :
  option_map f o = Some y -> exists x, o = Some x /\ y = f x.
Proof. destruct o; simpl; [|discriminate]. intros H. inversion H. eauto. Qed.

(** What the encoder does with a string of code units, in the terms of
    [Escapes]: a string without a lone surrogate is turned into the
    URL-encoding of the UTF-8 octets of its code points, and a string
    with one makes it throw. *)
Lemma encode_spec_bounded n : forall t,
  (List.length t <= n)%nat ->
  isString t = true ->
  match scalarValues t with
  | Some points =>
      exists octets e,
        encodeURIComponent t = Returned e /\
        utf8Decode octets = Some points /\
        urlEncoded octets e
  | None => encodeURIComponent t = Thrown (URIError "URI malformed")
  end.
Proof.
  induction n as [|n IH]; intros t Hlen Hstr.
  - destruct t; [|simpl in Hlen; lia].
    exists [], EmptyString. repeat split. constructor.
  - destruct t as [|c rest].
    { exists [], EmptyString. repeat split. constructor. }
    cbn [isString forallb] in Hstr. apply andb_true_iff in Hstr.
    destruct Hstr as [Hc Hrest]. apply N.ltb_lt in Hc.
    fold (isString rest) in Hrest.
    assert (Hlen' : (List.length rest <= n)%nat) by (simpl in Hlen; lia).
    cbn [scalarValues encodeURIComponent].
    destruct (unescaped c) eqn:Eu.
    + (* copied *)
      unfold unescaped in Eu. apply andb_true_iff in Eu.
      destruct Eu as [Hlt Hlit]. apply N.ltb_lt in Hlt.
      rewrite unreserved_isLiteral in Hlit.
      assert (E1 : ((55296 <=? c) && (c <=? 56319))%N = false) by (tests; reflexivity).
      assert (E2 : ((56320 <=? c) && (c <=? 57343))%N = false) by (tests; reflexivity).
      rewrite E1, E2. specialize (IH rest Hlen' Hrest).
      destruct (scalarValues rest) as [points|]; cbn [option_map].
      * destruct IH as (octets & e & -> & Hd & He).
        exists (c :: octets), (String (ascii_of_N c) e). split; [reflexivity|].
        split; [|now constructor].
        cbn [utf8Decode]. destruct (N.ltb_spec c 128); [|lia]. now rewrite Hd.
      * now rewrite IH.
    + unfold isLeadSurrogate, isTrailSurrogate.
      destruct ((55296 <=? c) && (c <=? 56319))%N eqn:El.
      * (* a lead surrogate *)
        destruct rest as [|d rest']; [reflexivity|].
        destruct ((56320 <=? d) && (d <=? 57343))%N eqn:Et; [|reflexivity].
        cbn [isString forallb] in Hrest. apply andb_true_iff in Hrest.
        destruct Hrest as [Hd Hrest']. fold (isString rest') in Hrest'.
        assert (Hlen2 : (List.length rest' <= n)%nat) by (simpl in Hlen'; lia).
        specialize (IH rest' Hlen2 Hrest').
        apply andb_true_iff in El, Et. destruct El as [El1 El2], Et as [Et1 Et2].
        apply N.leb_le in El1, El2, Et1, Et2.
        set (cp := ((c - 55296) * 1024 + (d - 56320) + 65536)%N).
        assert (Hcp : (cp < 1114112)%N) by (subst cp; lia).
        assert (Hsame : (65536 + 1024 * (c - 55296) + (d - 56320))%N = cp)
          by (subst cp; lia).
        rewrite Hsame.
        assert (Hun : unescaped cp = false).
        { unfold unescaped. destruct (N.ltb_spec cp 128); [subst cp; lia|].
          reflexivity. }
        destruct (scalarValues rest') as [points|]; cbn [option_map].
        -- destruct IH as (octets & e & -> & Hdec & He).
           exists (utf8Octets cp ++ octets)%list, (percentEscape (utf8Octets cp) ++ e).
           split; [reflexivity|]. split.
           ++ rewrite utf8Decode_octets by assumption. now rewrite Hdec.
           ++ apply escape_encoded; [|assumption].
              now apply utf8Octets_escapable.
        -- now rewrite IH.
      * destruct ((56320 <=? c) && (c <=? 57343))%N eqn:Et; [reflexivity|].
        specialize (IH rest Hlen' Hrest).
        assert (Hcp : (c < 1114112)%N) by lia.
        destruct (scalarValues rest) as [points|]; cbn [option_map].
        -- destruct IH as (octets & e & -> & Hdec & He).
           exists (utf8Octets c ++ octets)%list, (percentEscape (utf8Octets c) ++ e).
           split; [reflexivity|]. split.
           ++ rewrite utf8Decode_octets by assumption. now rewrite Hdec.
           ++ apply escape_encoded; [|assumption].
              now apply utf8Octets_escapable.
        -- now rewrite IH.
Qed.

Lemma encode_spec t :
  isString t = true ->
  match scalarValues t with
  | Some points =>
      exists octets e,
        encodeURIComponent t = Returned e /\
        utf8Decode octets = Some points /\
        urlEncoded octets e
  | None => encodeURIComponent t = Thrown (URIError "URI malformed")
  end.
Proof. apply (encode_spec_bounded (List.length t)). lia. Qed.
End Encoding.

Section Translator.
Import JS RokuService Escapes Scenarios.

Implicit Types (axios : Request.t -> outcome Reply.t)
               (parse : string -> outcome value).

(** C8 (as stated, refuted).  A text that holds an unpaired surrogate
    makes [encodeURIComponent] throw: text entry is left with a
    [URIError] and no request goes out, so there is no outbound path. *)
Lemma text_lone_surrogate_sends_nothing :
  text (ok EmptyString) "10.0.0.5" [55296%N]
  = ([], Thrown (URIError "URI malformed")) /\
  text (ok EmptyString) "10.0.0.5" (unitsOf "a b" ++ [56320%N])%list
  = ([], Thrown (URIError "URI malformed")).
Proof. split; reflexivity. Qed.

(** C8 (amended).  For a text without an unpaired surrogate, text entry
    issues exactly one request, a body-less [POST] whose url ends in the
    path ["/keypress/"] followed by ["Lit_"] and the URL-encoding of the
    text: the percent-encoding of the UTF-8 octets of its code points in
    which letters, digits and [- _ . ! ~ * ' ( )] stand for themselves;
    for the text ["a b"] this is ["a%20b"], so the url contains
    ["Lit_a%20b"].  For a text with an unpaired surrogate nothing is sent
    and a [URIError] is thrown. *)
Theorem text_request axios ip t :
  isString t = true ->
  (forall points,
      scalarValues t = Some points ->
      exists octets escaped request,
        utf8Decode octets = Some points /\
        urlEncoded octets escaped /\
        fst (text axios ip t) = [request] /\
        Request.method request = "POST" /\
        Request.data request = None /\
        Request.url request =
          "http://" ++ (if includes ":" ip then ip else ip ++ ":8060") ++
          "/keypress/" ++ "Lit_" ++ escaped /\
        includes ("Lit_" ++ escaped) (Request.url request) = true /\
        (t = unitsOf "a b" ->
         escaped = "a%20b" /\
         includes "Lit_a%20b" (Request.url request) = true)) /\
  (scalarValues t = None ->
   text axios ip t = ([], Thrown (URIError "URI malformed"))).
Proof.
  intros Hstr. pose proof (encode_spec t Hstr) as Hspec. split.
  - intros points Hp. rewrite Hp in Hspec.
    destruct Hspec as (octets & escaped & Henc & Hdec & Hurl).
    exists octets, escaped. unfold text. rewrite Henc. eexists.
    split; [exact Hdec|]. split; [exact Hurl|]. split; [reflexivity|].
    cbn [Request.method Request.data Request.url].
    split; [reflexivity|]. split; [reflexivity|].
    unfold _buildUrl. cbv zeta.
    set (base := if includes ":" ip then ip else ip ++ ":8060").
    assert (Hshape : "http://" ++ base ++ "/keypress/Lit_" ++ escaped
                     = ("http://" ++ base ++ "/keypress/") ++
                       ("Lit_" ++ escaped) ++ EmptyString).
    { rewrite !append_assoc. f_equal. f_equal. cbn.
      do 14 f_equal. clear. induction escaped as [|x e IH]; simpl;
        [reflexivity | now rewrite <- IH]. }
    split; [reflexivity|]. split.
    + rewrite Hshape. apply includes_append.
    + intros ->. assert (He : escaped = "a%20b").
      { vm_compute in Henc. now inversion Henc. }
      split; [exact He|]. subst escaped. rewrite Hshape.
      apply (includes_append "Lit_a%20b").
  - intros Hn. rewrite Hn in Hspec. unfold text. now rewrite Hspec.
Qed.

Lemma text_request_witness :
  exists request,
    fst (text (ok EmptyString) "10.0.0.5" (unitsOf "a b")) = [request] /\
    includes "Lit_a%20b" (Request.url request) = true.
Proof.
  destruct (proj1 (text_request (ok EmptyString) "10.0.0.5" (unitsOf "a b")
                     eq_refl) _ eq_refl)
    as (octets & escaped & request & _ & _ & Hreq & _ & _ & _ & _ & Hab).
  exists request. split; [exact Hreq | exact (proj2 (Hab eq_refl))].
Defined.

(** The one request a media-state query sends. *)
Lemma getMediaPlayer_request axios parse ip :
  fst (getMediaPlayer axios parse ip) =
  [{| Request.method := "GET";
      Request.url := _buildUrl ip "/query/media-search";
      Request.timeout := 5000%Z;
      Request.data := None |}].
Proof. reflexivity. Qed.

Lemma parseMediaXml_returns parse xml :
  exists v, _parseMediaXml parse xml = Returned v.
Proof.
  unfold _parseMediaXml. destruct (parse xml); simpl; eauto.
Qed.

(** C9.  A media-state query always returns: whenever the request fails,
    be it a reply with status 400 or above or a transport error, the
    result is the record [{available: false, error: message}] with the
    message of the failure. *)
Theorem getMediaPlayer_soft_failure axios parse ip :
  let request :=
    {| Request.method := "GET";
       Request.url := _buildUrl ip "/query/media-search";
       Request.timeout := 5000%Z;
       Request.data := None |} in
  (exists v, snd (getMediaPlayer axios parse ip) = Returned v) /\
  (forall e,
      snd (_makeRequest axios "GET" (_buildUrl ip "/query/media-search") None)
      = Thrown e ->
      snd (getMediaPlayer axios parse ip) =
      Returned (VObject [("available", VBool false);
                         ("error", VString (message e))])) /\
  (forall reply,
      axios request = Returned reply ->
      (400 <= Reply.status reply)%Z ->
      snd (getMediaPlayer axios parse ip) =
      Returned (VObject [("available", VBool false);
                         ("error", VString ("Roku API error: " ++
                             number_to_string (Reply.status reply) ++ " " ++
                             Reply.statusText reply))])) /\
  (forall e,
      axios request = Thrown e ->
      exists text,
        snd (getMediaPlayer axios parse ip) =
        Returned (VObject [("available", VBool false);
                           ("error", VString text)])).
Proof.
  intros request. unfold getMediaPlayer, unavailable. cbv zeta. cbn [snd].
  repeat split.
  - destruct (snd _); [apply parseMediaXml_returns | eauto].
  - intros e He. now rewrite He.
  - intros reply Hreply Hstatus. unfold _makeRequest. cbn [snd truthy].
    fold request. rewrite Hreply. cbn [bind].
    apply Z.leb_le in Hstatus. rewrite Hstatus. reflexivity.
  - intros e He. unfold _makeRequest. cbn [snd truthy].
    fold request. rewrite He. cbn [bind try_catch].
    destruct (code e) as [c|]; [|eauto].
    destruct (String.eqb c "ECONNREFUSED"); [eauto|].
    destruct (_ || _); eauto.
Qed.

Lemma getMediaPlayer_soft_failure_witness :
  snd (getMediaPlayer notFound malformed "10.0.0.5")
  = Returned (VObject [("available", VBool false);
                       ("error", VString "Roku API error: 404 Not Found")]).
Proof.
  destruct (getMediaPlayer_soft_failure notFound malformed "10.0.0.5")
    as (_ & _ & Hstatus & _).
  apply (Hstatus _ eq_refl). simpl. lia.
Defined.

Lemma appEntry_fields attrs text :
  appEntry (VObject [("_", text); ("$", VObject attrs)]) =
  Returned {| App.id := attribute attrs "id";
              App.name := if truthy_value (attribute attrs "version")
                          then attribute attrs "version" else text;
              App.type := attribute attrs "type";
              App.version := attribute attrs "version" |}.
Proof.
  unfold appEntry, attribute. cbn.
  destruct (truthy_value _); reflexivity.
Qed.

(** C4 (the code departs from the claim).  For the entry
    [<app id='12' type='appl' version='4.1.218'>Netflix</app>] the list
    query reports the version as the name, although the entry's text is
    ["Netflix"]; the active-app query reads the same entry's name from
    its text. *)
Theorem parseAppsXml_name_is_version :
  _parseAppsXml (parsesTo appsReply)
    "<apps><app id='12' type='appl' version='4.1.218'>Netflix</app></apps>"
  = Returned [{| App.id := VString "12"; App.name := VString "4.1.218";
                 App.type := VString "appl";
                 App.version := VString "4.1.218" |}] /\
  member netflixEntry "_" = Returned (VString "Netflix") /\
  _parseActiveAppXml (parsesTo activeAppReply)
    "<active-app><app id='12' type='appl' version='4.1.218'>Netflix</app></active-app>"
  = Returned (Some {| App.id := VString "12"; App.name := VString "Netflix";
                      App.type := VString "appl";
                      App.version := VString "4.1.218" |}).
Proof. split; [reflexivity | split; reflexivity]. Qed.




End Translator.


(* ================================================================== *)
(** * Further properties of the discovery aggregator *)

Section SessionRuns.
Import JS DeviceDiscovery Traffic.

Variable maxDevices : number.

(** Induction over the events delivered to a call. *)
Lemma discover_induction (I : list event -> session -> Prop) :
  I [] start ->
  (forall events e,
      I events (discover maxDevices events) ->
      I (events ++ [e])%list (deliver maxDevices (discover maxDevices events) e)) ->
  forall events, I events (discover maxDevices events).
Proof.
  intros Hstart Hstep events.
  induction events as [|e events IH] using rev_ind; [exact Hstart|].
  rewrite discover_snoc. now apply Hstep.
Qed.

Lemma resolve_fulfilled {A : Type} (v w : A) :
  resolve (Fulfilled v) w = Fulfilled v.
Proof. reflexivity. Qed.

Lemma deliver_keeps_fulfilled s e devices :
  result s = Fulfilled devices ->
  result (deliver maxDevices s e) = Fulfilled devices.
Proof.
  intros Hr. destruct e as [r| |err]; simpl.
  - destruct (listening s); [|assumption].
    unfold onResponse. destruct (ge _ _); cbn [result]; [|assumption].
    now rewrite Hr.
  - destruct (timerArmed s); [|assumption].
    cbn [onTimer result]. now rewrite Hr.
  - destruct (listening s); [|assumption].
    cbn [onError result]. now rewrite Hr.
Qed.

Lemma fulfilled_stays events more devices :
  result (discover maxDevices events) = Fulfilled devices ->
  result (discover maxDevices (events ++ more)) = Fulfilled devices.
Proof.
  intros Hr. unfold discover in *. rewrite fold_left_app.
  revert Hr. generalize (fold_left (deliver maxDevices) events start) as s.
  induction more as [|e more IH]; intros s Hr; simpl; [assumption|].
  apply IH. now apply deliver_keeps_fulfilled.
Qed.

Lemma session_lifecycle events :
  let s := discover maxDevices events in
  (result s = Pending /\ timerArmed s = true /\ listening s = true) \/
  (exists devices,
      result s = Fulfilled devices /\
      timerArmed s = false /\ listening s = false).
Proof.
  apply (discover_induction
           (fun _ s =>
              (result s = Pending /\ timerArmed s = true /\ listening s = true) \/
              (exists devices, result s = Fulfilled devices /\
                               timerArmed s = false /\ listening s = false))).
  - left. repeat split.
  - intros evs e. generalize (discover maxDevices evs) as s.
    intros s [(Hp & Ht & Hl) | (devices & Hf & Ht & Hl)].
    + destruct e as [r| |err]; simpl.
      * rewrite Hl. unfold onResponse. destruct (ge _ _); cbn.
        -- right. rewrite Hp. eexists. repeat split.
        -- left. auto.
      * rewrite Ht. right. cbn. rewrite Hp. eexists. repeat split.
      * rewrite Hl. right. cbn. rewrite Hp. eexists. repeat split.
    + right. exists devices.
      destruct e as [r| |err]; simpl; rewrite ?Hl, ?Ht; auto.
Qed.

(** X2.  The timer and the socket live exactly as long as the call is
    pending: a pending call has both, a resolved call has neither. *)
Theorem discover_releases_resources events :
  let s := discover maxDevices events in
  (result s = Pending /\ timerArmed s = true /\ listening s = true) \/
  (exists devices,
      result s = Fulfilled devices /\
      timerArmed s = false /\ listening s = false).
Proof. apply session_lifecycle. Qed.

(** X3.  When the deadline reaches a pending call, the call resolves with
    the normalized first [maxDevices] entries of the map, in insertion
    order; for a cap [z >= 0] these are at most [z] descriptors. *)
Theorem discover_deadline events z :
  maxDevices = Num z ->
  (0 <= z)%Z ->
  result (discover maxDevices events) = Pending ->
  exists devices,
    result (discover maxDevices (events ++ [Timeout])) = Fulfilled devices /\
    devices = map _normalizeDevice
                  (firstn (Z.to_nat z)
                          (Map.values (discoveredMap (discover maxDevices events)))) /\
    (Z.of_nat (List.length devices) <= z)%Z.
Proof.
  intros Hmax Hz Hp.
  destruct (session_lifecycle events)
    as [(_ & Ht & _) | (devices & Hf & _)]; [|congruence].
  eexists. split; [|split; [reflexivity|]].
  - rewrite discover_snoc. simpl. rewrite Ht. unfold onTimer. cbn [result].
    rewrite Hp, Hmax. cbn [resolve slice0].
    destruct (z <? 0)%Z eqn:E; [lia | reflexivity].
  - rewrite length_map, length_firstn. lia.
Qed.
End SessionRuns.

Lemma discover_deadline_witness :
  exists devices,
    DeviceDiscovery.result
      (DeviceDiscovery.discover (JS.Num 2)
         [DeviceDiscovery.Response Scenarios.threeAddresses;
          DeviceDiscovery.Timeout]) = JS.Fulfilled devices /\
    (Z.of_nat (List.length devices) <= 2)%Z.
Proof.
  destruct (discover_deadline (JS.Num 2)
              [DeviceDiscovery.Response Scenarios.threeAddresses] 2
              eq_refl ltac:(lia) eq_refl) as (devices & Hr & _ & Hlen).
  exists devices. split; [exact Hr | exact Hlen].
Defined.

(** ** Where the addresses of a session come from *)

Section Provenance.
Import JS DeviceDiscovery Traffic.

Lemma map_set_keys_in {V : Type} k (v : V) m k' :
  In k' (Map.keys (Map.set k v m)) <-> k' = k \/ In k' (Map.keys m).
Proof.
  rewrite map_set_keys. destruct (Map.has k m) eqn:E.
  - apply map_has_keys in E. split; [auto | intros [-> | H]; auto].
  - rewrite in_app_iff. simpl. split; intros H; intuition.
Qed.

Lemma map_set_keys_extend {V : Type} k (v : V) m :
  exists extra, Map.keys (Map.set k v m) = (Map.keys m ++ extra)%list.
Proof.
  rewrite map_set_keys. destruct (Map.has k m).
  - exists []. now rewrite app_nil_r.
  - now exists [k].
Qed.

Lemma addressesAmong_in records r a :
  In r records -> addressOf r = Some a -> In a (addressesAmong records).
Proof.
  intros Hin Ha. unfold addressesAmong. apply in_flat_map.
  exists r. split; [assumption|]. rewrite Ha. now left.
Qed.

Lemma addressesAmong_inv records a :
  In a (addressesAmong records) ->
  exists r, In r records /\ Mdns.type r = "A" /\ Mdns.data r = Some a /\
            a <> EmptyString.
Proof.
  unfold addressesAmong. intros Hin. apply in_flat_map in Hin.
  destruct Hin as (r & Hr & Ha). exists r. split; [assumption|].
  unfold addressOf in Ha.
  destruct (String.eqb (Mdns.type r) "A") eqn:Et; [|destruct Ha].
  destruct (truthy (Mdns.data r)) eqn:Ed; [|destruct Ha].
  cbn [andb] in Ha. destruct (Mdns.data r) as [b|]; [|discriminate].
  destruct Ha as [-> | []]. apply String.eqb_eq in Et.
  repeat split; auto. now apply truthy_some_nonempty.
Qed.

(** The address of an extracted device is announced by the packet. *)
Lemma extract_address record allRecords device a :
  _extractDeviceInfo record allRecords = Some device ->
  Device.ip device = Some a ->
  In a (addressesAmong allRecords).
Proof.
  intros Hex Hip.
  pose proof (extract_fields _ _ _ Hex) as (Ht & _).
  revert Hex. unfold _extractDeviceInfo. cbv zeta. cbn [Device.ip].
  destruct (find (fun r => String.eqb (Mdns.type r) "A" &&
                           String.eqb (Mdns.name r) (Mdns.name record))
                 allRecords) as [aRecord|] eqn:Ef; [|discriminate].
  apply find_some in Ef. destruct Ef as (Hin & Hp).
  apply andb_true_iff in Hp. destruct Hp as (Hty & _).
  destruct (truthy (Mdns.data aRecord)) eqn:Etr; [|discriminate].
  intros Hex. inversion Hex; subst; clear Hex. cbn [Device.ip] in Hip.
  apply (addressesAmong_in _ aRecord); [assumption|].
  unfold addressOf. now rewrite Hty, Etr, Hip.
Qed.

Lemma processRecord_keys allRecords m record k :
  In record allRecords ->
  In k (Map.keys (processRecord allRecords m record)) ->
  In k (Map.keys m) \/ In k (addressesAmong allRecords).
Proof.
  intros Hin. unfold processRecord.
  assert (Hs : In k (Map.keys (serviceStep allRecords m record)) ->
               In k (Map.keys m) \/ In k (addressesAmong allRecords)).
  { unfold serviceStep. destruct (_ && _); auto.
    destruct (_extractDeviceInfo record allRecords) as [device|] eqn:Ex; auto.
    destruct (Device.ip device) as [a|] eqn:Hip; auto.
    destruct (truthy (Some a)); auto.
    intros Hk. apply map_set_keys_in in Hk. destruct Hk as [-> | Hk]; auto.
    right. eapply extract_address; eauto. }
  unfold addressStep.
  destruct (Mdns.data record) as [a|] eqn:Hd; auto.
  destruct (String.eqb (Mdns.type record) "A" && truthy (Some a)) eqn:Ea; auto.
  cbv zeta. destruct (negb _); auto.
  intros Hk. apply map_set_keys_in in Hk. destruct Hk as [-> | Hk]; auto.
  right. apply (addressesAmong_in _ record); [assumption|].
  unfold addressOf. now rewrite Hd, Ea.
Qed.

Lemma processResponse_keys response m k :
  In k (Map.keys (_processResponse response m)) ->
  In k (Map.keys m) \/ In k (addressesIn response).
Proof.
  unfold _processResponse, addressesIn. cbv zeta.
  set (allRecords := allRecordsOf response).
  assert (Hgen : forall todo m0,
             incl todo allRecords ->
             In k (Map.keys (fold_left (processRecord allRecords) todo m0)) ->
             In k (Map.keys m0) \/ In k (addressesAmong allRecords)).
  { induction todo as [|r todo IH]; intros m0 Hincl; simpl; auto.
    intros Hk. apply IH in Hk.
    - destruct Hk as [Hk | Hk]; auto.
      apply processRecord_keys in Hk; auto. apply Hincl. now left.
    - intros x Hx. apply Hincl. now right. }
  apply Hgen. apply incl_refl.
Qed.

Lemma addressesSeen_snoc events e :
  addressesSeen (events ++ [e]) =
  (addressesSeen events ++
   match e with Response r => addressesIn r | _ => [] end)%list.
Proof.
  unfold addressesSeen. rewrite flat_map_app. simpl.
  now rewrite app_nil_r.
Qed.

(** Every address a session holds was announced by an address record of a
    delivered packet. *)
Lemma discover_keys_seen maxDevices events k :
  In k (Map.keys (discoveredMap (discover maxDevices events))) ->
  In k (addressesSeen events).
Proof.
  revert k.
  apply (discover_induction maxDevices
           (fun evs s => forall k, In k (Map.keys (discoveredMap s)) ->
                                   In k (addressesSeen evs))).
  - intros k [].
  - intros evs e. generalize (discover maxDevices evs) as s.
    intros s IH k. rewrite addressesSeen_snoc, in_app_iff.
    destruct e as [r| |err]; simpl.
    + destruct (listening s); [|auto].
      unfold onResponse. destruct (ge _ _); cbn [discoveredMap]; [auto|].
      intros Hk. apply processResponse_keys in Hk. destruct Hk; auto.
    + destruct (timerArmed s); cbn [onTimer discoveredMap]; auto.
    + destruct (listening s); cbn [onError discoveredMap]; auto.
Qed.

Lemma firstn_incl {A : Type} (n : nat) (l : list A) : incl (firstn n l) l.
Proof.
  intros x Hx. rewrite <- (firstn_skipn n l). apply in_app_iff. now left.
Qed.

Lemma slice0_incl {A : Type} (l : list A) (e : number) : incl (slice0 l e) l.
Proof.
  destruct e as [|z]; simpl; [intros x []|].
  destruct (z <? 0)%Z; apply firstn_incl.
Qed.

(** What a call resolves with is drawn from the normalized values of a
    well-keyed map whose keys were all announced. *)
Lemma discover_result_drawn maxDevices events devices :
  result (discover maxDevices events) = Fulfilled devices ->
  forall d, In d devices ->
    exists k device,
      In k (addressesSeen events) /\
      Device.ip device = Some k /\ Device.type device = Some "roku" /\
      Device.port device = Some 8060%Z /\
      d = _normalizeDevice device.
Proof.
  revert devices.
  apply (discover_induction maxDevices
           (fun evs s =>
              forall devices, result s = Fulfilled devices ->
              forall d, In d devices ->
                exists k device,
                  In k (addressesSeen evs) /\
                  Device.ip device = Some k /\
                  Device.type device = Some "roku" /\
                  Device.port device = Some 8060%Z /\
                  d = _normalizeDevice device)).
  - discriminate.
  - intros evs e.
    pose proof (discover_sessionInv maxDevices evs) as [[_ Hent] _].
    pose proof (discover_keys_seen maxDevices evs) as Hseen.
    revert Hent Hseen. generalize (discover maxDevices evs) as s.
    intros s Hent Hseen IH devices Hr d Hd.
    assert (Hold : forall ds, result s = Fulfilled ds -> In d ds ->
              exists k device,
                In k (addressesSeen (evs ++ [e])) /\
                Device.ip device = Some k /\
                Device.type device = Some "roku" /\
                Device.port device = Some 8060%Z /\
                d = _normalizeDevice device).
    { intros ds Hds Hin. destruct (IH ds Hds d Hin) as (k & dev & Hk & Hrest).
      exists k, dev. split; [|exact Hrest].
      rewrite addressesSeen_snoc. apply in_app_iff. now left. }
    assert (Hnew : forall vs, incl vs (Map.values (discoveredMap s)) ->
              In d (map _normalizeDevice vs) ->
              exists k device,
                In k (addressesSeen (evs ++ [e])) /\
                Device.ip device = Some k /\
                Device.type device = Some "roku" /\
                Device.port device = Some 8060%Z /\
                d = _normalizeDevice device).
    { intros vs Hincl Hin. apply in_map_iff in Hin.
      destruct Hin as (dev & <- & Hdev). apply Hincl in Hdev.
      unfold Map.values in Hdev. apply in_map_iff in Hdev.
      destruct Hdev as ([k dev'] & Heq & Hkd). simpl in Heq. subst dev'.
      destruct (Hent k dev Hkd) as (Hip & Hty & Hpo).
      exists k, dev. repeat split; auto.
      rewrite addressesSeen_snoc. apply in_app_iff. left.
      apply Hseen. unfold Map.keys. apply in_map_iff.
      exists (k, dev). auto. }
    destruct e as [r| |err]; simpl in Hr.
    + destruct (listening s); [|eauto].
      unfold onResponse in Hr. destruct (ge _ _); cbn [result] in Hr; [|eauto].
      destruct (result s) as [|ds|reason] eqn:Ers; cbn [resolve] in Hr;
        [|eauto|discriminate].
      inversion Hr; subst devices. eapply Hnew; [apply incl_refl | exact Hd].
    + destruct (timerArmed s); [|eauto].
      cbn [onTimer result] in Hr.
      destruct (result s) as [|ds|reason] eqn:Ers; cbn [resolve] in Hr;
        [|eauto|discriminate].
      inversion Hr; subst devices. eapply Hnew; [apply slice0_incl | exact Hd].
    + destruct (listening s); [|eauto].
      cbn [onError result] in Hr. rewrite nonempty_or_empty in Hr.
      destruct (result s) as [|ds|reason] eqn:Ers; cbn [resolve] in Hr;
        [|eauto|discriminate].
      inversion Hr; subst devices. eapply Hnew; [apply incl_refl | exact Hd].
Qed.
End Provenance.

Section Announcements.
Import JS DeviceDiscovery Traffic Scenarios.

Lemma addressesSeen_inv events a :
  In a (addressesSeen events) ->
  exists response, In (Response response) events /\ In a (addressesIn response).
Proof.
  unfold addressesSeen. intros Hin. apply in_flat_map in Hin.
  destruct Hin as (e & He & Ha). destruct e as [r| |err]; try destruct Ha.
  now exists r.
Qed.

(** X4.  Discovery invents no address: every descriptor of the resolved
    list carries the payload of an [A] record found among the answers or
    additionals of a packet that was delivered to the call. *)
Theorem discover_addresses_announced maxDevices events devices d :
  result (discover maxDevices events) = Fulfilled devices ->
  In d devices ->
  exists response record a,
    In (Response response) events /\
    In record (allRecordsOf response) /\
    Mdns.type record = "A" /\
    Mdns.data record = Some a /\
    Descriptor.ip d = Some a.
Proof.
  intros Hr Hd.
  destruct (discover_result_drawn _ _ _ Hr d Hd)
    as (k & device & Hk & Hip & _ & _ & ->).
  apply addressesSeen_inv in Hk. destruct Hk as (response & He & Hk).
  apply addressesAmong_inv in Hk.
  destruct Hk as (record & Hin & Hty & Hda & _).
  exists response, record, k. repeat split; auto.
Qed.

(** X5.  Every descriptor a call resolves with has a non-empty address,
    port [8060], kind ["roku"], the url ["http://<address>:8060"] and a
    non-empty display name. *)
Theorem discover_descriptors_wellFormed maxDevices events devices :
  result (discover maxDevices events) = Fulfilled devices ->
  Forall wellFormed devices.
Proof.
  intros Hr. apply Forall_forall. intros d Hd.
  destruct (discover_result_drawn _ _ _ Hr d Hd)
    as (k & device & Hk & Hip & Hty & Hpo & ->).
  apply addressesSeen_inv in Hk. destruct Hk as (response & _ & Hk).
  apply addressesAmong_inv in Hk. destruct Hk as (_ & _ & _ & _ & Hne).
  exists k. unfold _normalizeDevice. cbn. rewrite Hip, Hty, Hpo. cbn.
  repeat split; auto.
  destruct (Device.name device) as [[|c rest]|]; cbn; discriminate.
Qed.

(** X6.  Without address records nothing is found: if no delivered packet
    carries an [A] record with a payload, the call can only resolve with
    the empty list, and the deadline resolves a pending call with it. *)
Theorem discover_nothing_announced maxDevices events :
  addressesSeen events = [] ->
  (forall devices,
      result (discover maxDevices events) = Fulfilled devices -> devices = []) /\
  (result (discover maxDevices events) = Pending ->
   result (discover maxDevices (events ++ [Timeout])) = Fulfilled []).
Proof.
  intros Hnone. split.
  - intros devices Hr. destruct devices as [|d devices]; [reflexivity|].
    destruct (discover_result_drawn _ _ _ Hr d (or_introl eq_refl))
      as (k & _ & Hk & _).
    rewrite Hnone in Hk. destruct Hk.
  - intros Hp.
    assert (Hm : discoveredMap (discover maxDevices events) = []).
    { destruct (discoveredMap (discover maxDevices events)) as [|[k v] m] eqn:E;
        [reflexivity|].
      pose proof (discover_keys_seen maxDevices events k) as Hk.
      rewrite E, Hnone in Hk. destruct Hk. now left. }
    destruct (session_lifecycle maxDevices events)
      as [(_ & Ht & _) | (devices & Hf & _)]; [|congruence].
    rewrite discover_snoc. simpl. rewrite Ht. unfold onTimer. cbn [result].
    rewrite Hp, Hm. cbn [resolve]. destruct maxDevices as [|z]; [reflexivity|].
    simpl. destruct (z <? 0)%Z; now rewrite firstn_nil.
Qed.

Lemma discover_nothing_announced_witness :
  result (discover (Num 10)
            [Response (answer [{| Mdns.name := "printer.local";
                                  Mdns.type := "TXT";
                                  Mdns.data := Some "rp=ipp" |}]);
             Timeout]) = Fulfilled [].
Proof.
  exact (proj2 (discover_nothing_announced (Num 10)
                  [Response (answer [{| Mdns.name := "printer.local";
                                        Mdns.type := "TXT";
                                        Mdns.data := Some "rp=ipp" |}])]
                  eq_refl) eq_refl).
Defined.

Lemma discover_addresses_announced_witness :
  exists response record a,
    In (Response response) [Response firstSighting; Timeout] /\
    In record (allRecordsOf response) /\
    Mdns.type record = "A" /\
    Mdns.data record = Some a /\
    Descriptor.ip (_normalizeDevice (bareDevice "10.0.0.5" "living-room.local"))
    = Some a.
Proof.
  exact (discover_addresses_announced (Num 10) [Response firstSighting; Timeout]
           _ _ eq_refl (or_introl eq_refl)).
Defined.

Lemma discover_descriptors_wellFormed_witness :
  Forall wellFormed
         [_normalizeDevice (bareDevice "10.0.0.5" "living-room.local")].
Proof.
  exact (discover_descriptors_wellFormed (Num 10)
           [Response firstSighting; ListenerError "EBADF"] _ eq_refl).
Defined.

(** *** Packets only ever add to the map *)

Lemma processRecord_keys_extend allRecords m record :
  exists extra,
    Map.keys (processRecord allRecords m record) = (Map.keys m ++ extra)%list.
Proof.
  unfold processRecord.
  assert (H1 : exists extra,
             Map.keys (serviceStep allRecords m record)
             = (Map.keys m ++ extra)%list).
  { unfold serviceStep.
    assert (Hsame : exists extra, Map.keys m = (Map.keys m ++ extra)%list)
      by (exists []; now rewrite app_nil_r).
    destruct (_ && _); auto.
    destruct (_extractDeviceInfo record allRecords) as [device|]; auto.
    destruct (Device.ip device) as [a|]; auto.
    destruct (truthy (Some a)); auto. apply map_set_keys_extend. }
  destruct H1 as (e1 & H1).
  assert (H2 : forall m1, exists extra,
             Map.keys (addressStep m1 record) = (Map.keys m1 ++ extra)%list).
  { intros m1. unfold addressStep.
    assert (Hsame : exists extra, Map.keys m1 = (Map.keys m1 ++ extra)%list)
      by (exists []; now rewrite app_nil_r).
    destruct (Mdns.data record) as [a|]; auto.
    destruct (_ && _); auto. cbv zeta.
    destruct (negb _); auto. apply map_set_keys_extend. }
  destruct (H2 (serviceStep allRecords m record)) as (e2 & H2').
  exists (e1 ++ e2)%list. now rewrite H2', H1, app_assoc.
Qed.

Lemma processRecords_keys_extend allRecords todo m :
  exists extra,
    Map.keys (fold_left (processRecord allRecords) todo m)
    = (Map.keys m ++ extra)%list.
Proof.
  revert m. induction todo as [|r todo IH]; intros m; simpl.
  - exists []. now rewrite app_nil_r.
  - destruct (IH (processRecord allRecords m r)) as (e2 & H2).
    destruct (processRecord_keys_extend allRecords m r) as (e1 & H1).
    exists (e1 ++ e2)%list. now rewrite H2, H1, app_assoc.
Qed.

Lemma deliver_keys_extend maxDevices s e :
  exists extra,
    Map.keys (discoveredMap (deliver maxDevices s e))
    = (Map.keys (discoveredMap s) ++ extra)%list.
Proof.
  assert (Hsame : exists extra,
             Map.keys (discoveredMap s)
             = (Map.keys (discoveredMap s) ++ extra)%list)
    by (exists []; now rewrite app_nil_r).
  destruct e as [r| |err]; simpl.
  - destruct (listening s); auto. unfold onResponse.
    destruct (ge _ _); cbn [discoveredMap]; auto.
    apply processRecords_keys_extend.
  - destruct (timerArmed s); auto.
  - destruct (listening s); auto.
Qed.

(** X7.  A session never drops or reorders an address: the keys of the
    map after further events are the earlier keys, in the same order,
    followed by the newly found ones. *)
Theorem discover_keys_only_grow maxDevices events more :
  exists extra,
    Map.keys (discoveredMap (discover maxDevices (events ++ more)))
    = (Map.keys (discoveredMap (discover maxDevices events)) ++ extra)%list.
Proof.
  unfold discover. rewrite fold_left_app.
  generalize (fold_left (deliver maxDevices) events start) as s.
  induction more as [|e more IH]; intros s; simpl.
  - exists []. now rewrite app_nil_r.
  - destruct (IH (deliver maxDevices s e)) as (e2 & H2).
    destruct (deliver_keys_extend maxDevices s e) as (e1 & H1).
    exists (e1 ++ e2)%list. now rewrite H2, H1, app_assoc.
Qed.
End Announcements.

Section Coverage.
Import JS DeviceDiscovery Traffic Scenarios.

Lemma map_has_extend {V : Type} (m m' : Map.t V) extra k :
  Map.keys m' = (Map.keys m ++ extra)%list ->
  Map.has k m = true -> Map.has k m' = true.
Proof.
  intros Hk Hh. apply map_has_keys. rewrite Hk. apply in_app_iff. left.
  now apply map_has_keys.
Qed.

Lemma addressStep_covers m record a :
  addressOf record = Some a -> Map.has a (addressStep m record) = true.
Proof.
  unfold addressOf, addressStep. intros Ha.
  destruct (String.eqb (Mdns.type record) "A") eqn:Et; [|discriminate].
  destruct (truthy (Mdns.data record)) eqn:Ed; [|discriminate].
  cbn [andb] in Ha. rewrite Ha in *. rewrite Ed. cbn [andb]. cbv zeta.
  destruct (Map.has a m) eqn:Eh; cbn [negb]; [assumption|].
  apply map_has_set_same.
Qed.

Lemma processRecords_cover allRecords todo m record a :
  In record todo ->
  addressOf record = Some a ->
  Map.has a (fold_left (processRecord allRecords) todo m) = true.
Proof.
  revert m. induction todo as [|r todo IH]; intros m Hin Ha; [destruct Hin|].
  simpl. destruct Hin as [-> | Hin]; [|now apply IH].
  destruct (processRecords_keys_extend allRecords todo
              (processRecord allRecords m record)) as (extra & Hext).
  eapply map_has_extend; [exact Hext|].
  unfold processRecord. now apply addressStep_covers.
Qed.

(** X8.  A packet that is processed leaves none of its addresses out: if
    the call is still pending after a packet, every [A] record with a
    payload among the packet's answers and additionals has its address in
    the session map. *)
Theorem discover_covers_packet maxDevices events response record a :
  result (discover maxDevices (events ++ [Response response])) = Pending ->
  In record (allRecordsOf response) ->
  Mdns.type record = "A" ->
  Mdns.data record = Some a ->
  a <> EmptyString ->
  Map.has a (discoveredMap (discover maxDevices (events ++ [Response response])))
  = true.
Proof.
  rewrite discover_snoc. intros Hp Hin Hty Hda Hne.
  assert (Ha : addressOf record = Some a).
  { unfold addressOf. rewrite Hty, Hda.
    apply truthy_some_nonempty in Hne. now rewrite Hne. }
  destruct (session_lifecycle maxDevices events)
    as [(_ & _ & Hl) | (devices & Hf & _)].
  - revert Hp. simpl. rewrite Hl. unfold onResponse.
    destruct (ge _ _); cbn [result discoveredMap].
    + destruct (result (discover maxDevices events)); discriminate.
    + intros _. unfold _processResponse. cbv zeta.
      now apply (processRecords_cover _ _ _ record).
  - rewrite (deliver_keeps_fulfilled maxDevices _ _ _ Hf) in Hp. discriminate.
Qed.

Lemma discover_covers_packet_witness :
  Map.has "10.0.0.3"
    (discoveredMap (discover (Num 10) ([Response firstSighting] ++
                                       [Response threeAddresses])%list))
  = true.
Proof.
  apply (discover_covers_packet (Num 10) [Response firstSighting]
           threeAddresses (addressRecord "loft.local" "10.0.0.3") "10.0.0.3");
    try reflexivity.
  - simpl. auto.
  - discriminate.
Defined.

Lemma find_first {A : Type} (f : A -> bool) (before after : list A) (x : A) :
  (forall y, In y before -> f y = false) ->
  f x = true ->
  find f (before ++ x :: after) = Some x.
Proof.
  intros Hb Hx. induction before as [|y before IH]; simpl.
  - now rewrite Hx.
  - rewrite (Hb y (or_introl eq_refl)). apply IH.
    intros z Hz. apply Hb. now right.
Qed.

Lemma find_none_all {A : Type} (f : A -> bool) (l : list A) :
  (forall y, In y l -> f y = false) -> find f l = None.
Proof.
  intros H. induction l as [|y l IH]; simpl; [reflexivity|].
  rewrite (H y (or_introl eq_refl)). apply IH. intros z Hz. apply H. now right.
Qed.

(** X9.  Only the first [A] record bearing the service record's name
    counts as its companion: the extracted device takes the record's name
    and that companion's payload as its address, and the extraction yields
    nothing when that payload is missing or empty, whatever later records
    say. *)
Theorem extractDeviceInfo_first_companion record before companion after :
  (forall r, In r before -> companionOf (Mdns.name record) r = false) ->
  companionOf (Mdns.name record) companion = true ->
  let allRecords := (before ++ companion :: after)%list in
  (truthy (Mdns.data companion) = false ->
   _extractDeviceInfo record allRecords = None) /\
  (truthy (Mdns.data companion) = true ->
   exists device,
     _extractDeviceInfo record allRecords = Some device /\
     Device.ip device = Mdns.data companion /\
     Device.name device = Some (Mdns.name record) /\
     Device.port device = Some 8060%Z /\
     Device.type device = Some "roku").
Proof.
  intros Hb Hc allRecords. subst allRecords.
  unfold _extractDeviceInfo. cbv zeta. cbn [Device.ip].
  change (fun r => String.eqb (Mdns.type r) "A" &&
                   String.eqb (Mdns.name r) (Mdns.name record))
    with (companionOf (Mdns.name record)).
  rewrite (find_first _ _ _ _ Hb Hc).
  split; intros Ht; rewrite Ht; [reflexivity|].
  eexists. split; [reflexivity|]. cbn. auto.
Qed.

Lemma extractDeviceInfo_first_companion_witness :
  _extractDeviceInfo
    {| Mdns.name := "Roku Ultra.local"; Mdns.type := "PTR";
       Mdns.data := Some "_ecp-server._tcp.local" |}
    [{| Mdns.name := "Roku Ultra.local"; Mdns.type := "A"; Mdns.data := None |};
     addressRecord "Roku Ultra.local" "10.0.0.5"] = None.
Proof.
  refine (proj1 (extractDeviceInfo_first_companion
                   {| Mdns.name := "Roku Ultra.local"; Mdns.type := "PTR";
                      Mdns.data := Some "_ecp-server._tcp.local" |}
                   []
                   {| Mdns.name := "Roku Ultra.local"; Mdns.type := "A";
                      Mdns.data := None |}
                   [addressRecord "Roku Ultra.local" "10.0.0.5"] _ eq_refl)
                eq_refl).
  intros r [].
Defined.

(** X10.  A service record without a companion — no [A] record of the
    same name among the packet's records — is dropped without a trace:
    the extraction yields nothing and the service step leaves the map as
    it was. *)
Theorem service_record_without_companion allRecords m record :
  (forall r, In r allRecords -> companionOf (Mdns.name record) r = false) ->
  _extractDeviceInfo record allRecords = None /\
  serviceStep allRecords m record = m.
Proof.
  intros Hnone.
  assert (Hex : _extractDeviceInfo record allRecords = None).
  { unfold _extractDeviceInfo. cbv zeta. cbn [Device.ip].
    change (fun r => String.eqb (Mdns.type r) "A" &&
                     String.eqb (Mdns.name r) (Mdns.name record))
      with (companionOf (Mdns.name record)).
    now rewrite (find_none_all _ _ Hnone). }
  split; [exact Hex|].
  unfold serviceStep. rewrite Hex. now destruct (_ && _).
Qed.

Lemma service_record_without_companion_witness :
  serviceStep
    [{| Mdns.name := "Roku Ultra.local"; Mdns.type := "PTR";
        Mdns.data := Some "_ecp-server._tcp.local" |};
     addressRecord "den.local" "10.0.0.1"]
    Map.empty
    {| Mdns.name := "Roku Ultra.local"; Mdns.type := "PTR";
       Mdns.data := Some "_ecp-server._tcp.local" |} = Map.empty.
Proof.
  refine (proj2 (service_record_without_companion _ _ _ _)).
  intros r [<- | [<- | []]]; reflexivity.
Defined.

(** X11.  A cap that is not a number never stops a call early and empties
    the deadline result: with [maxDevices = NaN] a packet delivered to a
    pending call leaves it pending, and the deadline resolves it with the
    empty list whatever the map holds. *)
Theorem discover_with_NaN_cap events response :
  result (discover NaN events) = Pending ->
  result (discover NaN (events ++ [Response response])) = Pending /\
  result (discover NaN (events ++ [Timeout])) = Fulfilled [].
Proof.
  intros Hp.
  destruct (session_lifecycle NaN events)
    as [(_ & Ht & Hl) | (devices & Hf & _)]; [|congruence].
  rewrite !discover_snoc. simpl. rewrite Ht, Hl. split.
  - exact Hp.
  - cbn [onTimer result slice0 map]. now rewrite Hp.
Qed.

Lemma discover_with_NaN_cap_witness :
  result (discover NaN [Response threeAddresses; Response twoAddresses])
  = Pending /\
  result (discover NaN [Response threeAddresses; Timeout]) = Fulfilled [].
Proof.
  exact (discover_with_NaN_cap [Response threeAddresses] twoAddresses eq_refl).
Defined.

(** X12.  A cap of zero or below disables discovery: no packet is ever
    processed, the map stays empty, and the call can only resolve with the
    empty list; the first packet resolves it at once. *)
Theorem discover_with_nonpositive_cap z events :
  (z <= 0)%Z ->
  discoveredMap (discover (Num z) events) = Map.empty /\
  (forall devices,
      result (discover (Num z) events) = Fulfilled devices -> devices = []) /\
  (forall response,
      result (discover (Num z) (Response response :: events)) = Fulfilled []).
Proof.
  intros Hz.
  assert (Hinv : discoveredMap (discover (Num z) events) = Map.empty /\
                 forall devices,
                   result (discover (Num z) events) = Fulfilled devices ->
                   devices = []).
  { apply (discover_induction (Num z)
             (fun _ s => discoveredMap s = Map.empty /\
                         forall devices, result s = Fulfilled devices ->
                                         devices = [])).
    - split; [reflexivity | discriminate].
    - intros evs e. generalize (discover (Num z) evs) as s.
      intros s (Hm & Hres).
      assert (Hstep : forall l,
                 (forall devices, resolve (result s) l = Fulfilled devices ->
                                  l = [] -> devices = [])).
      { intros l devices Hr Hl. destruct (result s) eqn:E; cbn in Hr.
        - inversion Hr. congruence.
        - now apply Hres.
        - discriminate. }
      destruct e as [r| |err]; simpl.
      + destruct (listening s); [|auto]. unfold onResponse.
        rewrite Hm. change (ge (Map.size (@Map.empty Device.t)) (Num z))
          with (z <=? 0)%Z.
        assert (Hge : (z <=? 0)%Z = true) by now apply Z.leb_le.
        rewrite Hge. cbn. split; [reflexivity|].
        intros devices Hr. now apply (Hstep [] devices).
      + destruct (timerArmed s); [|auto]. cbn. rewrite Hm.
        split; [reflexivity|]. intros devices Hr.
        apply (Hstep _ devices Hr). cbn.
        destruct (z <? 0)%Z; now rewrite firstn_nil.
      + destruct (listening s); [|auto]. cbn. rewrite Hm.
        split; [reflexivity|]. intros devices Hr.
        now apply (Hstep _ devices Hr). }
  destruct Hinv as (Hm & Hres). split; [exact Hm|]. split; [exact Hres|].
  intros response.
  change (Response response :: events)
    with ([Response response] ++ events)%list.
  apply fulfilled_stays.
  assert (Hge : (z <=? 0)%Z = true) by now apply Z.leb_le.
  unfold discover. cbn [fold_left deliver start listening]. unfold onResponse.
  change (ge (Map.size (discoveredMap start)) (Num z)) with (z <=? 0)%Z.
  now rewrite Hge.
Qed.

Lemma discover_with_nonpositive_cap_witness :
  result (discover (Num 0) [Response threeAddresses; Timeout]) = Fulfilled [].
Proof.
  refine (proj2 (proj2 (discover_with_nonpositive_cap 0 [Timeout] _))
                threeAddresses).
  lia.
Defined.
End Coverage.


(* ================================================================== *)
(** * Further properties of the ECP translator *)

Section Requests.
Import JS RokuService Replies Scenarios.

Implicit Types (axios : Request.t -> outcome Reply.t)
               (parse : string -> outcome value).

Lemma makeRequest_unfold axios method url data :
  snd (_makeRequest axios method url data) =
  match axios (requestFor method url data) with
  | Returned reply =>
      if (400 <=? Reply.status reply)%Z
      then Thrown (Error ("Roku API error: " ++
                          number_to_string (Reply.status reply) ++ " " ++
                          Reply.statusText reply))
      else Returned (Reply.data reply)
  | Thrown e =>
      match code e with
      | Some c =>
          if String.eqb c "ECONNREFUSED"
          then Thrown (Error ("Cannot connect to Roku device at " ++ url ++
                 ". Check IP address and that device is powered on."))
          else if String.eqb c "ETIMEDOUT" || String.eqb c "ENOTFOUND"
          then Thrown (Error
                 "Connection timeout to Roku device. Check network connectivity.")
          else Thrown e
      | None => Thrown e
      end
  end.
Proof.
  unfold _makeRequest, requestFor. cbn [snd].
  destruct (axios _) as [reply|e]; cbn [bind try_catch]; [|reflexivity].
  destruct (400 <=? Reply.status reply)%Z; reflexivity.
Qed.

(** X13.  A request returns a body exactly when the client delivers a
    reply with a status below 400, and then it returns that reply's body;
    a reply with status 400 or above is thrown as an error without a
    code whose message reads ["Roku API error: <status> <statusText>"]. *)
Theorem makeRequest_returns_iff axios method url data :
  (forall body,
      snd (_makeRequest axios method url data) = Returned body <->
      exists reply,
        axios (requestFor method url data) = Returned reply /\
        (Reply.status reply < 400)%Z /\ Reply.data reply = body) /\
  (forall reply,
      axios (requestFor method url data) = Returned reply ->
      (400 <= Reply.status reply)%Z ->
      snd (_makeRequest axios method url data) =
      Thrown {| code := None;
                message := "Roku API error: " ++
                           number_to_string (Reply.status reply) ++ " " ++
                           Reply.statusText reply |}).
Proof.
  rewrite makeRequest_unfold. split.
  - intros body. split.
    + destruct (axios _) as [reply|e].
      * destruct (400 <=? Reply.status reply)%Z eqn:E; [discriminate|].
        intros H. inversion H. exists reply. apply Z.leb_gt in E. auto.
      * destruct (code e) as [c|]; [|discriminate].
        destruct (String.eqb c "ECONNREFUSED"); [discriminate|].
        destruct (_ || _); discriminate.
    + intros (reply & Hr & Hs & Hb). rewrite Hr.
      apply Z.leb_gt in Hs. now rewrite Hs, Hb.
  - intros reply Hr Hs. rewrite Hr. apply Z.leb_le in Hs. now rewrite Hs.
Qed.

Lemma makeRequest_returns_iff_witness :
  snd (_makeRequest (ok "<apps/>") "GET" "http://10.0.0.5:8060/query/apps" None)
  = Returned "<apps/>" /\
  snd (_makeRequest notFound "GET" "http://10.0.0.5:8060/query/apps" None)
  = Thrown (Error "Roku API error: 404 Not Found").
Proof.
  split.
  - apply (proj1 (makeRequest_returns_iff (ok "<apps/>") "GET"
                    "http://10.0.0.5:8060/query/apps" None)).
    eexists. split; [reflexivity|]. split; [simpl; lia | reflexivity].
  - refine (proj2 (makeRequest_returns_iff notFound "GET"
                     "http://10.0.0.5:8060/query/apps" None) _ eq_refl _).
    simpl. lia.
Defined.

Lemma buildUrl_mentions_address ip endpoint :
  exists before after, _buildUrl ip endpoint = before ++ ip ++ after.
Proof.
  unfold _buildUrl. cbv zeta. exists "http://".
  destruct (includes ":" ip).
  - now exists endpoint.
  - exists (":8060" ++ endpoint). now rewrite append_assoc.
Qed.

(** X14.  A refused connection is reported with the device address in
    the message: when the client fails with code [ECONNREFUSED], an
    operation on [ip] throws an error whose message is ["Cannot connect
    to Roku device at <url>. ..."] and contains [ip]. *)
Theorem makeRequest_refused_names_address axios method ip endpoint data e :
  axios (requestFor method (_buildUrl ip endpoint) data) = Thrown e ->
  code e = Some "ECONNREFUSED" ->
  exists err,
    snd (_makeRequest axios method (_buildUrl ip endpoint) data) = Thrown err /\
    code err = None /\
    message err = "Cannot connect to Roku device at " ++ _buildUrl ip endpoint ++
                  ". Check IP address and that device is powered on." /\
    includes (_buildUrl ip endpoint) (message err) = true /\
    includes ip (message err) = true.
Proof.
  intros Hax Hcode. rewrite makeRequest_unfold, Hax, Hcode.
  cbn [String.eqb Ascii.eqb Bool.eqb]. eexists. split; [reflexivity|].
  cbn [code message Error]. split; [reflexivity|]. split; [reflexivity|].
  split; [apply includes_append|].
  destruct (buildUrl_mentions_address ip endpoint) as (before & after & ->).
  rewrite !append_assoc. rewrite <- (append_assoc _ before).
  apply includes_append.
Qed.

Lemma makeRequest_refused_names_address_witness :
  exists err,
    snd (keypress (fun _ => Thrown {| code := Some "ECONNREFUSED";
                                      message := "connect ECONNREFUSED" |})
                  "10.0.0.5" "Home") = Thrown err /\
    includes "10.0.0.5" (message err) = true.
Proof.
  destruct (makeRequest_refused_names_address
              (fun _ => Thrown {| code := Some "ECONNREFUSED";
                                  message := "connect ECONNREFUSED" |})
              "POST" "10.0.0.5" "/keypress/Home" (Some EmptyString) _
              eq_refl eq_refl) as (err & Hr & _ & _ & _ & Hin).
  exists err. split; [exact Hr | exact Hin].
Defined.

(** X15.  The other transport failures: codes [ETIMEDOUT] and [ENOTFOUND]
    are replaced by one fixed time-out message that names no address,
    and an error with any other code, or with none, is passed on as it
    is. *)
Theorem makeRequest_transport_errors axios method url data e :
  axios (requestFor method url data) = Thrown e ->
  code e <> Some "ECONNREFUSED" ->
  (code e = Some "ETIMEDOUT" \/ code e = Some "ENOTFOUND" ->
   snd (_makeRequest axios method url data) =
   Thrown (Error
     "Connection timeout to Roku device. Check network connectivity.")) /\
  (code e <> Some "ETIMEDOUT" -> code e <> Some "ENOTFOUND" ->
   snd (_makeRequest axios method url data) = Thrown e).
Proof.
  intros Hax Hnot. rewrite makeRequest_unfold, Hax.
  destruct (code e) as [c|] eqn:Hc.
  - destruct (String.eqb c "ECONNREFUSED") eqn:E1.
    { apply String.eqb_eq in E1. congruence. }
    split.
    + intros [H | H]; inversion H; subst c; reflexivity.
    + intros H2 H3.
      destruct (String.eqb c "ETIMEDOUT") eqn:E2.
      { apply String.eqb_eq in E2. congruence. }
      destruct (String.eqb c "ENOTFOUND") eqn:E3.
      { apply String.eqb_eq in E3. congruence. }
      reflexivity.
  - split; [intros [H | H]; discriminate | reflexivity].
Qed.

Lemma makeRequest_transport_errors_witness :
  snd (getDeviceInfo (fun _ => Thrown {| code := Some "ECONNABORTED";
                                         message := "timeout of 5000ms exceeded" |})
                     "10.0.0.5")
  = Thrown {| code := Some "ECONNABORTED";
              message := "timeout of 5000ms exceeded" |} /\
  snd (getDeviceInfo (fun _ => Thrown {| code := Some "ENOTFOUND";
                                         message := "getaddrinfo ENOTFOUND" |})
                     "roku.invalid")
  = Thrown (Error
      "Connection timeout to Roku device. Check network connectivity.").
Proof.
  split.
  - refine (proj2 (makeRequest_transport_errors _ "GET" _ None _ eq_refl _) _ _);
      discriminate.
  - refine (proj1 (makeRequest_transport_errors _ "GET" _ None _ eq_refl _) _).
    + discriminate.
    + now right.
Defined.

Lemma includes_colon_default ip : includes ":" (ip ++ ":8060") = true.
Proof. apply (includes_append ":" ip "8060"). Qed.

(** X16.  An address without a port separator stands for the same address
    with the control port: [_buildUrl] gives [ip] and [ip ++ ":8060"] the
    same url, and an address that has a separator is used unchanged. *)
Theorem buildUrl_default_port ip endpoint :
  (includes ":" ip = false ->
   _buildUrl ip endpoint = "http://" ++ ip ++ ":8060" ++ endpoint /\
   _buildUrl (ip ++ ":8060") endpoint = _buildUrl ip endpoint) /\
  (includes ":" ip = true ->
   _buildUrl ip endpoint = "http://" ++ ip ++ endpoint).
Proof.
  unfold _buildUrl. cbv zeta. rewrite includes_colon_default.
  split; intros H; rewrite H; [|reflexivity].
  rewrite append_assoc. auto.
Qed.

Lemma buildUrl_default_port_witness :
  _buildUrl "10.0.0.5" "/query/apps" = "http://10.0.0.5:8060/query/apps" /\
  _buildUrl "10.0.0.5:8061" "/query/apps" = "http://10.0.0.5:8061/query/apps".
Proof.
  split.
  - exact (proj1 (proj1 (buildUrl_default_port "10.0.0.5" "/query/apps")
                    eq_refl)).
  - exact (proj2 (buildUrl_default_port "10.0.0.5:8061" "/query/apps") eq_refl).
Defined.
End Requests.

Section Parsers.
Import JS RokuService Replies Scenarios.

Implicit Types (axios : Request.t -> outcome Reply.t)
               (parse : string -> outcome value).

Lemma try_catch_returns {A : Type} (body : outcome A) (fallback : A) :
  exists a, try_catch body (fun _ => Returned fallback) = Returned a.
Proof. destruct body; simpl; eauto. Qed.

(** X17.  None of the three reply parsers ever throws, whatever the XML
    parser does with the reply. *)
Theorem parsers_never_throw parse xml :
  (exists apps, _parseAppsXml parse xml = Returned apps) /\
  (exists app, _parseActiveAppXml parse xml = Returned app) /\
  (exists media, _parseMediaXml parse xml = Returned media).
Proof.
  split; [|split]; apply try_catch_returns.
Qed.

Lemma parseAppsXml_on_entries parse xml items :
  appArray (parse xml) = Some items ->
  _parseAppsXml parse xml =
  try_catch (array_map appEntry items) (fun _ => Returned []).
Proof.
  unfold appArray, _parseAppsXml.
  destruct (parse xml) as [parsed|e]; [|discriminate].
  destruct parsed as [| | b | s | l | fields]; try discriminate.
  cbn [bind member].
  destruct (lookup "apps" fields) as [root|]; [|discriminate].
  destruct root as [| | b | s | l | fields']; try discriminate.
  cbn [bind opt_member member].
  destruct (lookup "app" fields') as [entries|]; [|discriminate].
  destruct entries as [| | b | s | l | fs]; try discriminate.
  intros H. inversion H. reflexivity.
Qed.

Lemma array_map_thrown {A B : Type} (f : A -> outcome B) (l : list A) x e :
  In x l -> f x = Thrown e -> exists e', array_map f l = Thrown e'.
Proof.
  intros Hin Hx. induction l as [|a l IH]; [destruct Hin|].
  simpl. destruct Hin as [-> | Hin].
  - rewrite Hx. simpl. eauto.
  - destruct (f a); simpl; [|eauto].
    destruct (IH Hin) as (e' & ->). simpl. eauto.
Qed.

(** X18.  One entry without attributes empties the whole list: if any
    element of the entry array is plain text (an [<app>] element that has
    no attribute), [_parseAppsXml] returns the empty list, whatever the
    other entries are. *)
Theorem parseAppsXml_all_or_nothing parse xml items s :
  appArray (parse xml) = Some items ->
  In (VString s) items ->
  _parseAppsXml parse xml = Returned [].
Proof.
  intros Harr Hin. rewrite (parseAppsXml_on_entries _ _ _ Harr).
  destruct (array_map_thrown appEntry items (VString s)
              (TypeError "Cannot read properties of undefined (reading 'id')")
              Hin eq_refl) as (e' & ->).
  reflexivity.
Qed.

Lemma parseAppsXml_all_or_nothing_witness :
  _parseAppsXml
    (parsesTo (VObject [("apps",
                 VObject [("app", VArray [netflixEntry; VString "Roku"])])]))
    "<apps><app id='12' type='appl' version='4.1.218'>Netflix</app><app>Roku</app></apps>"
  = Returned [].
Proof.
  apply (parseAppsXml_all_or_nothing _ _ [netflixEntry; VString "Roku"] "Roku").
  - reflexivity.
  - right. now left.
Defined.

Lemma appEntry_with_attributes item attrs :
  attributesOf item = Some attrs ->
  exists name,
    appEntry item =
    Returned {| App.id := attribute attrs "id";
                App.name := name;
                App.type := attribute attrs "type";
                App.version := attribute attrs "version" |}.
Proof.
  unfold attributesOf. destruct item as [| | b | s | l | fields]; try discriminate.
  destruct (lookup "$" fields) as [av|] eqn:El; [|discriminate].
  destruct av as [| | b | s | l | attrs']; try discriminate.
  intros H. inversion H; subst attrs'. clear H.
  unfold appEntry. cbn [member bind]. rewrite El. cbn [member bind].
  fold (attribute attrs "id"). fold (attribute attrs "version").
  fold (attribute attrs "type").
  destruct (truthy_value (attribute attrs "version")); cbn [bind]; eauto.
Qed.

Lemma array_map_attributes items :
  Forall (fun item => attributesOf item <> None) items ->
  exists apps,
    array_map appEntry items = Returned apps /\
    Forall2 (fun item app =>
               exists attrs,
                 attributesOf item = Some attrs /\
                 App.id app = attribute attrs "id" /\
                 App.type app = attribute attrs "type" /\
                 App.version app = attribute attrs "version")
            items apps.
Proof.
  induction 1 as [|item items Hitem _ IH]; simpl.
  - exists []. split; [reflexivity | constructor].
  - destruct (attributesOf item) as [attrs|] eqn:Ea; [|congruence].
    destruct (appEntry_with_attributes item attrs Ea) as (name & ->).
    destruct IH as (apps & -> & Hall). cbn [bind]. eexists. split; [reflexivity|].
    constructor; [|assumption]. exists attrs. cbn. auto.
Qed.

(** X19.  When every entry of the array carries an attribute object, the
    list has one record per entry, in order, and each record's id, type
    and version are the entry's [id], [type] and [version] attributes
    ([undefined] for an attribute the entry lacks). *)
Theorem parseAppsXml_one_record_per_entry parse xml items :
  appArray (parse xml) = Some items ->
  Forall (fun item => attributesOf item <> None) items ->
  exists apps,
    _parseAppsXml parse xml = Returned apps /\
    List.length apps = List.length items /\
    Forall2 (fun item app =>
               exists attrs,
                 attributesOf item = Some attrs /\
                 App.id app = attribute attrs "id" /\
                 App.type app = attribute attrs "type" /\
                 App.version app = attribute attrs "version")
            items apps.
Proof.
  intros Harr Hall. rewrite (parseAppsXml_on_entries _ _ _ Harr).
  destruct (array_map_attributes items Hall) as (apps & -> & H2).
  exists apps. split; [reflexivity|]. split; [|assumption].
  symmetry. eapply Forall2_length; eauto.
Qed.

Lemma parseAppsXml_one_record_per_entry_witness :
  exists apps,
    _parseAppsXml (parsesTo appsReply) "<apps>...</apps>" = Returned apps /\
    List.length apps = 1%nat.
Proof.
  destruct (parseAppsXml_one_record_per_entry (parsesTo appsReply)
              "<apps>...</apps>" [netflixEntry] eq_refl)
    as (apps & Hr & Hl & _).
  - constructor; [discriminate | constructor].
  - exists apps. split; [exact Hr | exact Hl].
Defined.
End Parsers.

Section ActiveApp.
Import JS RokuService Replies Scenarios.

Implicit Types (axios : Request.t -> outcome Reply.t)
               (parse : string -> outcome value).

(** X20.  The active-app query reads the first entry only: when the reply
    holds an entry array under [active-app] whose first element carries an
    attribute object, the result is that element's record, with the name
    taken from its text, whatever entries follow. *)
Theorem parseActiveAppXml_first_entry parse xml fields fields' item others attrs :
  parse xml = Returned (VObject fields) ->
  lookup "active-app" fields = Some (VObject fields') ->
  lookup "app" fields' = Some (VArray (item :: others)) ->
  attributesOf item = Some attrs ->
  _parseActiveAppXml parse xml =
  Returned (Some {| App.id := attribute attrs "id";
                    App.name := textOf item;
                    App.type := attribute attrs "type";
                    App.version := attribute attrs "version" |}).
Proof.
  intros Hp Hroot Hentries Hattrs.
  unfold _parseActiveAppXml. rewrite Hp. cbn [bind member]. rewrite Hroot.
  cbn [bind opt_member member]. rewrite Hentries. cbn [opt_first].
  unfold attributesOf in Hattrs.
  destruct item as [| | b | s | l | itemFields]; try discriminate.
  destruct (lookup "$" itemFields) as [av|] eqn:El; [|discriminate].
  destruct av as [| | b | s | l | attrs']; try discriminate.
  inversion Hattrs; subst attrs'.
  cbn [truthy_value negb member bind]. rewrite El. cbn [member bind].
  reflexivity.
Qed.

Lemma parseActiveAppXml_first_entry_witness :
  _parseActiveAppXml
    (parsesTo (VObject [("active-app",
                 VObject [("app", VArray [netflixEntry; VString "ignored"])])]))
    "<active-app>...</active-app>"
  = Returned (Some {| App.id := VString "12"; App.name := VString "Netflix";
                      App.type := VString "appl";
                      App.version := VString "4.1.218" |}).
Proof.
  exact (parseActiveAppXml_first_entry
           (parsesTo (VObject [("active-app",
              VObject [("app", VArray [netflixEntry; VString "ignored"])])]))
           "<active-app>...</active-app>"
           [("active-app",
             VObject [("app", VArray [netflixEntry; VString "ignored"])])]
           [("app", VArray [netflixEntry; VString "ignored"])]
           netflixEntry [VString "ignored"]
           [("id", VString "12"); ("type", VString "appl");
            ("version", VString "4.1.218")]
           eq_refl eq_refl eq_refl eq_refl).
Defined.

(** X21.  The active-app query answers [null] for everything else: it
    returns a record only if the reply parsed to an object whose
    [active-app] member holds a non-empty entry array whose first element
    is an object with an [$] member that is neither [undefined] nor
    [null]. *)
Theorem parseActiveAppXml_record_only_if parse xml app :
  _parseActiveAppXml parse xml = Returned (Some app) ->
  exists fields fields' itemFields others attrs,
    parse xml = Returned (VObject fields) /\
    lookup "active-app" fields = Some (VObject fields') /\
    lookup "app" fields' = Some (VArray (VObject itemFields :: others)) /\
    lookup "$" itemFields = Some attrs /\
    attrs <> VUndefined /\ attrs <> VNull /\
    App.name app = textOf (VObject itemFields).
Proof.
  unfold _parseActiveAppXml.
  destruct (parse xml) as [parsed|e]; [|discriminate].
  destruct parsed as [| | b | s | l | fields]; try discriminate.
  cbn [bind member].
  destruct (lookup "active-app" fields) as [root|] eqn:Eroot; [|discriminate].
  destruct root as [| | b | s | l | fields']; try discriminate.
  cbn [bind opt_member member].
  destruct (lookup "app" fields') as [entries|] eqn:Eapp; [|discriminate].
  destruct entries as [| | b | s | l | fs]; try discriminate.
  - destruct s as [|c s]; discriminate.
  - destruct l as [|item others]; [discriminate|]. cbn [opt_first].
    destruct item as [| | b | s | l | itemFields]; try discriminate.
    + destruct b; discriminate.
    + destruct s; discriminate.
    + cbn [truthy_value negb member bind].
      destruct (lookup "$" itemFields) as [attrs|] eqn:El; [|discriminate].
      destruct attrs as [| | b | s | l | attrs']; try discriminate;
        cbn [member bind try_catch]; intros H; inversion H; subst app;
        exists fields, fields', itemFields, others; eexists;
        (split; [reflexivity|]); (split; [exact Eroot|]);
        (split; [exact Eapp|]); (split; [exact El|]);
        (split; [discriminate|]); (split; [discriminate | reflexivity]).
Qed.

Lemma parseActiveAppXml_record_only_if_witness :
  exists fields fields' itemFields others attrs,
    parsesTo activeAppReply "<active-app>...</active-app>"
    = Returned (VObject fields) /\
    lookup "active-app" fields = Some (VObject fields') /\
    lookup "app" fields' = Some (VArray (VObject itemFields :: others)) /\
    lookup "$" itemFields = Some attrs /\
    attrs <> VUndefined /\ attrs <> VNull /\
    VString "Netflix" = textOf (VObject itemFields).
Proof.
  exact (parseActiveAppXml_record_only_if (parsesTo activeAppReply)
           "<active-app>...</active-app>"
           {| App.id := VString "12"; App.name := VString "Netflix";
              App.type := VString "appl"; App.version := VString "4.1.218" |}
           eq_refl).
Defined.

(** X22.  A media-state query whose request succeeds returns what the
    XML parser made of the body when that is truthy, and the record
    [{available: false}] — without an error member — when the parser
    rejects the body or yields [null] or another falsy value. *)
Theorem getMediaPlayer_after_success axios parse ip reply :
  axios (requestFor "GET" (_buildUrl ip "/query/media-search") None)
  = Returned reply ->
  (Reply.status reply < 400)%Z ->
  (forall parsed,
      parse (Reply.data reply) = Returned parsed ->
      truthy_value parsed = true ->
      snd (getMediaPlayer axios parse ip) = Returned parsed) /\
  (forall parsed,
      parse (Reply.data reply) = Returned parsed ->
      truthy_value parsed = false ->
      snd (getMediaPlayer axios parse ip)
      = Returned (VObject [("available", VBool false)])) /\
  (forall e,
      parse (Reply.data reply) = Thrown e ->
      snd (getMediaPlayer axios parse ip)
      = Returned (VObject [("available", VBool false)])).
Proof.
  intros Hax Hs. unfold getMediaPlayer. cbv zeta. cbn [snd].
  rewrite makeRequest_unfold, Hax. apply Z.leb_gt in Hs. rewrite Hs.
  unfold _parseMediaXml.
  repeat split.
  - intros parsed Hp Ht. rewrite Hp. cbn. now rewrite Ht.
  - intros parsed Hp Ht. rewrite Hp. cbn. now rewrite Ht.
  - intros e Hp. now rewrite Hp.
Qed.

Lemma getMediaPlayer_after_success_witness :
  snd (getMediaPlayer (ok "<player/>") (parsesTo VNull) "10.0.0.5")
  = Returned (VObject [("available", VBool false)]) /\
  snd (getMediaPlayer (ok "<player/>") malformed "10.0.0.5")
  = Returned (VObject [("available", VBool false)]).
Proof.
  destruct (getMediaPlayer_after_success (ok "<player/>") (parsesTo VNull)
              "10.0.0.5" _ eq_refl ltac:(simpl; lia)) as (_ & Hnull & _).
  destruct (getMediaPlayer_after_success (ok "<player/>") malformed
              "10.0.0.5" _ eq_refl ltac:(simpl; lia)) as (_ & _ & Hbad).
  split; [exact (Hnull VNull eq_refl eq_refl) | exact (Hbad _ eq_refl)].
Defined.
End ActiveApp.

(** ** Text entry: what the escaping guarantees *)

Section Escaping.
Import JS RokuService Replies Escapes Scenarios.

Implicit Types (axios : Request.t -> outcome Reply.t).

Lemma hexDigit_inAlphabet n : inSegmentAlphabet (hexDigit n) = true.
Proof. do 16 (destruct n as [|n]; [reflexivity|]). reflexivity. Qed.

Lemma unreserved_inAlphabet c :
  unreserved c = true -> inSegmentAlphabet c = true.
Proof.
  destruct c as [[] [] [] [] [] [] [] []]; intros H;
    solve [reflexivity | discriminate H].
Qed.

Lemma chars_append (a b : string) :
  list_ascii_of_string (a ++ b) =
  (list_ascii_of_string a ++ list_ascii_of_string b)%list.
Proof. induction a as [|c a IH]; simpl; [reflexivity | now rewrite IH]. Qed.

Lemma percentEscape_alphabet octets :
  Forall (fun c => inSegmentAlphabet c = true)
         (list_ascii_of_string (percentEscape octets)).
Proof.
  induction octets as [|o octets IH]; [constructor|].
  cbn [percentEscape list_ascii_of_string].
  repeat constructor; auto using hexDigit_inAlphabet.
Qed.

Lemma encode_alphabet n : forall t e,
  (List.length t <= n)%nat ->
  encodeURIComponent t = Returned e ->
  Forall (fun c => inSegmentAlphabet c = true) (list_ascii_of_string e).
Proof.
  induction n as [|n IH]; intros t e Hlen.
  - destruct t; [|simpl in Hlen; lia]. intros H. inversion H. constructor.
  - destruct t as [|c rest]; [intros H; inversion H; constructor|].
    assert (Hlen' : (List.length rest <= n)%nat) by (simpl in Hlen; lia).
    cbn [encodeURIComponent].
    destruct (unescaped c) eqn:Eu.
    + destruct (encodeURIComponent rest) as [r|err] eqn:Er; [|discriminate].
      cbn [bind]. intros H. inversion H.
      cbn [list_ascii_of_string]. constructor; [|eapply IH; eauto].
      unfold unescaped in Eu. apply andb_true_iff in Eu.
      now apply unreserved_inAlphabet.
    + destruct (isLeadSurrogate c).
      * destruct rest as [|d rest']; [discriminate|].
        destruct (isTrailSurrogate d); [|discriminate].
        destruct (encodeURIComponent rest') as [r|err] eqn:Er; [|discriminate].
        cbn [bind]. intros H. inversion H. rewrite chars_append.
        apply Forall_app. split; [apply percentEscape_alphabet|].
        eapply (IH rest'); eauto. simpl in Hlen'. lia.
      * destruct (isTrailSurrogate c); [discriminate|].
        destruct (encodeURIComponent rest) as [r|err] eqn:Er; [|discriminate].
        cbn [bind]. intros H. inversion H. rewrite chars_append.
        apply Forall_app. split; [apply percentEscape_alphabet|].
        eapply IH; eauto.
Qed.

Lemma text_sent axios ip t request :
  In request (fst (text axios ip t)) ->
  exists escaped,
    encodeURIComponent t = Returned escaped /\
    fst (text axios ip t) = [request] /\
    Request.url request = _buildUrl ip "/keypress/Lit_" ++ escaped.
Proof.
  unfold text. destruct (encodeURIComponent t) as [escaped|e]; [|intros []].
  cbn [fst _makeRequest]. intros [<- | []]. exists escaped.
  split; [reflexivity|]. split; [reflexivity|]. cbn [Request.url].
  unfold _buildUrl. cbv zeta. now rewrite !append_assoc.
Qed.

(** X23.  Text entry cannot leave its path segment: the url of every
    request it sends is the url of ["/keypress/Lit_"] followed by
    characters drawn from the letters, the digits, [- _ . ! ~ * ' ( )]
    and [%]; none of them is a slash, a question mark, a hash or a
    space. *)
Theorem text_stays_in_segment axios ip t request :
  In request (fst (text axios ip t)) ->
  exists escaped,
    fst (text axios ip t) = [request] /\
    Request.url request = _buildUrl ip "/keypress/Lit_" ++ escaped /\
    Forall (fun c => inSegmentAlphabet c = true)
           (list_ascii_of_string escaped) /\
    forall c, In c (list_ascii_of_string escaped) ->
              c <> "/"%char /\ c <> "?"%char /\ c <> "#"%char /\ c <> " "%char.
Proof.
  intros Hin. destruct (text_sent axios ip t request Hin)
    as (escaped & Henc & Hreq & Hurl).
  exists escaped. split; [exact Hreq|]. split; [exact Hurl|].
  pose proof (encode_alphabet _ t escaped (le_n _) Henc) as Hsafe.
  split; [exact Hsafe|].
  intros c Hc. rewrite Forall_forall in Hsafe. specialize (Hsafe c Hc).
  repeat split; intros ->; discriminate.
Qed.

Lemma text_stays_in_segment_witness :
  exists escaped,
    Request.url
      {| Request.method := "POST";
         Request.url := "http://10.0.0.5:8060/keypress/Lit_a%2Fb%3Fc%C3%A9";
         Request.timeout := 5000%Z;
         Request.data := None |}
    = _buildUrl "10.0.0.5" "/keypress/Lit_" ++ escaped /\
    ~ In "/"%char (list_ascii_of_string escaped).
Proof.
  destruct (text_stays_in_segment (ok EmptyString) "10.0.0.5"
              (unitsOf "a/b?c" ++ [233%N])%list _ (or_introl eq_refl))
    as (escaped & _ & Hurl & _ & Hno).
  exists escaped. split; [exact Hurl|].
  intros Hin. destruct (Hno _ Hin) as (Hs & _). now apply Hs.
Defined.

Ltac Zify.zify_post_hook ::= Z.to_euclidean_division_equations.

(** An encoded segment spells one sequence of octets only. *)
Lemma urlEncoded_unique octets1 e :
  urlEncoded octets1 e ->
  forall octets2, urlEncoded octets2 e -> octets1 = octets2.
Proof.
  induction 1 as [| o rest e Ho Hlit _ IH
                  | o rest e h l hi lo Ho Hesc Hh Hl Hval _ IH];
    intros octets2 H2; inversion H2; subst.
  - reflexivity.
  - f_equal; [|now apply IH].
    rewrite <- (N_ascii_embedding o), <- (N_ascii_embedding o0) by lia.
    congruence.
  - match goal with
    | Heq : "%"%char = ascii_of_N _ |- _ => rewrite <- Heq in Hlit
    | Heq : ascii_of_N _ = "%"%char |- _ => rewrite Heq in Hlit
    end. discriminate Hlit.
  - match goal with
    | Hlit' : isLiteral (ascii_of_N _) = true,
      Heq : ascii_of_N _ = "%"%char |- _ => rewrite Heq in Hlit'
    | Hlit' : isLiteral (ascii_of_N _) = true,
      Heq : "%"%char = ascii_of_N _ |- _ => rewrite <- Heq in Hlit'
    end. discriminate.
  - f_equal; [congruence | now apply IH].
Qed.

Lemma cons_eq_inv {A : Type} (a b : A) (l m : list A) :
  a :: l = b :: m -> a = b /\ l = m.
Proof.
  intros H. split; [exact (f_equal (hd a) H) | exact (f_equal (@tl A) H)].
Qed.

(** A string of code units is determined by the code points it spells. *)
Lemma scalarValues_injective n : forall t1 t2 points,
  (List.length t1 <= n)%nat ->
  isString t1 = true -> isString t2 = true ->
  scalarValues t1 = Some points -> scalarValues t2 = Some points ->
  t1 = t2.
Proof.
  induction n as [|n IH]; intros t1 t2 points Hlen Hs1 Hs2 H1 H2.
  - destruct t1; [|simpl in Hlen; lia]. inversion H1; subst points.
    destruct t2 as [|c rest]; [reflexivity|]. exfalso.
    cbn [scalarValues] in H2.
    destruct ((55296 <=? c) && (c <=? 56319))%N.
    + destruct rest as [|d rest']; [discriminate|].
      destruct ((56320 <=? d) && (d <=? 57343))%N; [|discriminate].
      apply option_map_some in H2. destruct H2 as (x & _ & Hx). discriminate.
    + destruct ((56320 <=? c) && (c <=? 57343))%N; [discriminate|].
      apply option_map_some in H2. destruct H2 as (x & _ & Hx). discriminate.
  - destruct t1 as [|c1 r1].
    { inversion H1; subst points.
      destruct t2 as [|c rest]; [reflexivity|]. exfalso.
      cbn [scalarValues] in H2.
      destruct ((55296 <=? c) && (c <=? 56319))%N.
      + destruct rest as [|d rest']; [discriminate|].
        destruct ((56320 <=? d) && (d <=? 57343))%N; [|discriminate].
        apply option_map_some in H2. destruct H2 as (x & _ & Hx). discriminate.
      + destruct ((56320 <=? c) && (c <=? 57343))%N; [discriminate|].
        apply option_map_some in H2. destruct H2 as (x & _ & Hx). discriminate. }
    destruct t2 as [|c2 r2].
    { exfalso. inversion H2; subst points. cbn [scalarValues] in H1.
      destruct ((55296 <=? c1) && (c1 <=? 56319))%N.
      + destruct r1 as [|d rest']; [discriminate|].
        destruct ((56320 <=? d) && (d <=? 57343))%N; [|discriminate].
        apply option_map_some in H1. destruct H1 as (x & _ & Hx). discriminate.
      + destruct ((56320 <=? c1) && (c1 <=? 57343))%N; [discriminate|].
        apply option_map_some in H1. destruct H1 as (x & _ & Hx). discriminate. }
    cbn [isString forallb] in Hs1, Hs2.
    apply andb_true_iff in Hs1, Hs2.
    destruct Hs1 as [Hc1 Hr1], Hs2 as [Hc2 Hr2].
    apply N.ltb_lt in Hc1, Hc2. fold (isString r1) in Hr1. fold (isString r2) in Hr2.
    assert (Hlen1 : (List.length r1 <= n)%nat) by (simpl in Hlen; lia).
    cbn [scalarValues] in H1, H2.
    destruct ((55296 <=? c1) && (c1 <=? 56319))%N eqn:L1;
      destruct ((55296 <=? c2) && (c2 <=? 56319))%N eqn:L2.
    + (* pair, pair *)
      destruct r1 as [|d1 r1']; [discriminate|].
      destruct r2 as [|d2 r2']; [discriminate|].
      destruct ((56320 <=? d1) && (d1 <=? 57343))%N eqn:T1; [|discriminate].
      destruct ((56320 <=? d2) && (d2 <=? 57343))%N eqn:T2; [|discriminate].
      apply option_map_some in H1, H2.
      destruct H1 as (p1 & Hp1 & ->), H2 as (p2 & Hp2 & Heq).
      apply cons_eq_inv in Heq. destruct Heq as [Hcp Hps]. subst p2.
      apply andb_true_iff in L1, L2, T1, T2.
      destruct L1 as [A1 A2], L2 as [B1 B2], T1 as [C1 C2], T2 as [D1 D2].
      apply N.leb_le in A1, A2, B1, B2, C1, C2, D1, D2.
      assert (c1 = c2) by lia. subst c2.
      assert (d1 = d2) by lia. subst d2.
      cbn [isString forallb] in Hr1, Hr2.
      apply andb_true_iff in Hr1, Hr2. destruct Hr1 as [_ Hr1], Hr2 as [_ Hr2].
      do 2 f_equal. apply (IH r1' r2' p1); auto. simpl in Hlen1. lia.
    + (* pair, single *)
      exfalso. destruct r1 as [|d1 r1']; [discriminate|].
      destruct ((56320 <=? d1) && (d1 <=? 57343))%N eqn:T1; [|discriminate].
      destruct ((56320 <=? c2) && (c2 <=? 57343))%N; [discriminate|].
      apply option_map_some in H1, H2.
      destruct H1 as (p1 & _ & ->), H2 as (p2 & _ & Heq).
      apply cons_eq_inv in Heq. destruct Heq as [Hcp _].
      apply andb_true_iff in T1. destruct T1 as [C1 C2].
      apply N.leb_le in C1, C2. lia.
    + (* single, pair *)
      exfalso. destruct r2 as [|d2 r2']; [discriminate|].
      destruct ((56320 <=? d2) && (d2 <=? 57343))%N eqn:T2; [|discriminate].
      destruct ((56320 <=? c1) && (c1 <=? 57343))%N; [discriminate|].
      apply option_map_some in H1, H2.
      destruct H1 as (p1 & _ & ->), H2 as (p2 & _ & Heq).
      apply cons_eq_inv in Heq. destruct Heq as [Hcp _].
      apply andb_true_iff in T2. destruct T2 as [C1 C2].
      apply N.leb_le in C1, C2. lia.
    + (* single, single *)
      destruct ((56320 <=? c1) && (c1 <=? 57343))%N; [discriminate|].
      destruct ((56320 <=? c2) && (c2 <=? 57343))%N; [discriminate|].
      apply option_map_some in H1, H2.
      destruct H1 as (p1 & Hp1 & ->), H2 as (p2 & Hp2 & Heq).
      apply cons_eq_inv in Heq. destruct Heq as [-> ->].
      f_equal. now apply (IH r1 r2 p2).
Qed.

Lemma append_cancel_l (a x y : string) : a ++ x = a ++ y -> x = y.
Proof.
  induction a as [|c a IH]; simpl; [auto|].
  intros H. inversion H. auto.
Qed.

(** X24.  The escaping loses nothing: text entry sends different requests
    for different texts.  If [t1] has no unpaired surrogate and [t2] is
    another string, the requests sent for [t1] and for [t2] to the same
    address differ. *)
Theorem text_requests_distinguish_texts axios ip t1 t2 :
  isString t1 = true ->
  isString t2 = true ->
  scalarValues t1 <> None ->
  t1 <> t2 ->
  fst (text axios ip t1) <> fst (text axios ip t2).
Proof.
  intros Hs1 Hs2 Hwf Hne Heq.
  pose proof (encode_spec t1 Hs1) as Sp1.
  pose proof (encode_spec t2 Hs2) as Sp2.
  destruct (scalarValues t1) as [p1|] eqn:E1; [|congruence].
  destruct Sp1 as (o1 & e1 & Henc1 & Hd1 & Hu1).
  assert (Hin : In (requestFor "POST" (_buildUrl ip ("/keypress/Lit_" ++ e1))
                               (Some EmptyString))
                   (fst (text axios ip t1))).
  { unfold text. rewrite Henc1. now left. }
  destruct (scalarValues t2) as [p2|] eqn:E2.
  - destruct Sp2 as (o2 & e2 & Henc2 & Hd2 & Hu2).
    revert Heq. unfold text. rewrite Henc1, Henc2. cbn [fst _makeRequest].
    intros Heq. apply cons_eq_inv in Heq. destruct Heq as [Hreq _].
    apply (f_equal Request.url) in Hreq. cbn [Request.url] in Hreq.
    unfold _buildUrl in Hreq. cbv zeta in Hreq.
    do 3 apply append_cancel_l in Hreq.
    assert (He : e1 = e2) by exact Hreq.
    subst e2. pose proof (urlEncoded_unique _ _ Hu1 _ Hu2) as Ho. subst o2.
    assert (p1 = p2) by congruence. subst p2.
    apply Hne. now apply (scalarValues_injective (List.length t1) t1 t2 p1).
  - rewrite Heq in Hin. unfold text in Hin. rewrite Sp2 in Hin. destruct Hin.
Qed.

Lemma text_requests_distinguish_texts_witness :
  fst (text (ok EmptyString) "10.0.0.5" (unitsOf "a b"))
  <> fst (text (ok EmptyString) "10.0.0.5" (unitsOf "a+b")).
Proof.
  apply text_requests_distinguish_texts; try reflexivity; discriminate.
Defined.
End Escaping.


(* ================================================================== *)
(** * Properties of the routes *)

Section RouteFacts.
Import JS RokuService Replies Server Scenarios.

Implicit Types (axios : Request.t -> outcome Reply.t)
               (parse : string -> outcome value).



Lemma respond_makeRequest {B : Type} axios method url data (k : string -> body B) :
  snd (respond (_makeRequest axios method url data) k) =
  match snd (_makeRequest axios method url data) with
  | Returned a => {| status := 200%Z; json := k a |}
  | Thrown e => {| status := 500%Z; json := Failure (message e) |}
  end.
Proof. reflexivity. Qed.

(** X26.  A key press with a key sends exactly one body-less [POST] to
    ["/keypress/<key>"] and reports what the device did: 200 and
    [{success: true}] for a reply below 400, 500 with the message
    ["Roku API error: <status> <statusText>"] for a reply of 400 or
    above, and 500 with a message that contains the address when the
    connection is refused. *)
Theorem keypressRoute_outcomes axios ip key :
  key <> EmptyString ->
  let request :=
    {| Request.method := "POST";
       Request.url := _buildUrl ip ("/keypress/" ++ key);
       Request.timeout := 5000%Z;
       Request.data := None |} in
  fst (keypressRoute axios ip (Some (Some key))) = [request] /\
  (forall reply,
      axios request = Returned reply ->
      (Reply.status reply < 400)%Z ->
      snd (keypressRoute axios ip (Some (Some key)))
      = {| status := 200%Z; json := Done |}) /\
  (forall reply,
      axios request = Returned reply ->
      (400 <= Reply.status reply)%Z ->
      snd (keypressRoute axios ip (Some (Some key)))
      = {| status := 500%Z;
           json := Failure ("Roku API error: " ++
                            number_to_string (Reply.status reply) ++ " " ++
                            Reply.statusText reply) |}) /\
  (forall e,
      axios request = Thrown e ->
      code e = Some "ECONNREFUSED" ->
      exists text,
        snd (keypressRoute axios ip (Some (Some key)))
        = {| status := 500%Z; json := Failure text |} /\
        includes ip text = true).
Proof.
  intros Hne request. unfold keypressRoute.
  apply truthy_some_nonempty in Hne. rewrite Hne. cbn [negb template].
  split; [reflexivity|]. unfold keypress. rewrite respond_makeRequest.
  rewrite makeRequest_unfold.
  change (requestFor "POST" (_buildUrl ip ("/keypress/" ++ key))
                     (Some EmptyString)) with request.
  split; [|split].
  - intros reply Hr Hs. rewrite Hr. apply Z.leb_gt in Hs. now rewrite Hs.
  - intros reply Hr Hs. rewrite Hr. apply Z.leb_le in Hs. now rewrite Hs.
  - intros e He Hc. rewrite He, Hc. cbn [String.eqb Ascii.eqb Bool.eqb].
    eexists. split; [reflexivity|]. cbn [message Error].
    destruct (buildUrl_mentions_address ip ("/keypress/" ++ key))
      as (before & after & ->).
    rewrite !append_assoc. rewrite <- (append_assoc _ before).
    apply includes_append.
Qed.

Lemma keypressRoute_outcomes_witness :
  snd (keypressRoute (ok EmptyString) "10.0.0.5" (Some (Some "Home")))
  = {| status := 200%Z; json := Done |} /\
  snd (keypressRoute notFound "10.0.0.5" (Some (Some "Home")))
  = {| status := 500%Z; json := Failure "Roku API error: 404 Not Found" |}.
Proof.
  destruct (keypressRoute_outcomes (ok EmptyString) "10.0.0.5" "Home")
    as (_ & Hok & _); [discriminate|].
  destruct (keypressRoute_outcomes notFound "10.0.0.5" "Home")
    as (_ & _ & Hbad & _); [discriminate|].
  split.
  - apply (Hok _ eq_refl). simpl. lia.
  - apply (Hbad _ eq_refl). simpl. lia.
Defined.

(** X27.  The media route never answers 500: whatever the device and
    the XML parser do, it answers 200 with [{success: true, data}], and
    when the request to the device failed the data is
    [{available: false, error: message}]. *)
Theorem mediaRoute_always_succeeds axios parse ip :
  (exists data,
      snd (mediaRoute axios parse ip)
      = {| status := 200%Z; json := Success data |}) /\
  (forall e,
      snd (_makeRequest axios "GET" (_buildUrl ip "/query/media-search") None)
      = Thrown e ->
      snd (mediaRoute axios parse ip)
      = {| status := 200%Z;
           json := Success (VObject [("available", VBool false);
                                     ("error", VString (message e))]) |}).
Proof.
  unfold mediaRoute, respond, getMediaPlayer, unavailable. cbv zeta.
  cbn [snd fst].
  split.
  - destruct (snd (_makeRequest _ _ _ _)) as [xml|e]; [|eauto].
    unfold _parseMediaXml.
    destruct (try_catch_returns
                (bind (parse xml)
                   (fun parsed =>
                      Returned (if truthy_value parsed then parsed
                                else VObject [("available", VBool false)])))
                (VObject [("available", VBool false)])) as (v & ->).
    eauto.
  - intros e He. now rewrite He.
Qed.

Lemma mediaRoute_always_succeeds_witness :
  snd (mediaRoute notFound malformed "10.0.0.5")
  = {| status := 200%Z;
       json := Success (VObject
                 [("available", VBool false);
                  ("error", VString "Roku API error: 404 Not Found")]) |}.
Proof.
  exact (proj2 (mediaRoute_always_succeeds notFound malformed "10.0.0.5")
           (Error "Roku API error: 404 Not Found") eq_refl).
Defined.

(** X28.  The list and active-app routes answer 500 exactly for a failed
    request, with the failure's message as the error; once the device
    has replied below 400 they answer 200 with data, whatever the body
    was — an unreadable body gives the empty list and [null]. *)
Theorem query_routes_outcomes axios parse ip :
  (forall e,
      snd (_makeRequest axios "GET" (_buildUrl ip "/query/apps") None)
      = Thrown e ->
      snd (appsRoute axios parse ip)
      = {| status := 500%Z; json := Failure (message e) |}) /\
  (forall e,
      snd (_makeRequest axios "GET" (_buildUrl ip "/query/active-app") None)
      = Thrown e ->
      snd (activeRoute axios parse ip)
      = {| status := 500%Z; json := Failure (message e) |}) /\
  (forall xml,
      snd (_makeRequest axios "GET" (_buildUrl ip "/query/apps") None)
      = Returned xml ->
      (exists apps, snd (appsRoute axios parse ip)
                    = {| status := 200%Z; json := Success apps |}) /\
      (forall e, parse xml = Thrown e ->
                 snd (appsRoute axios parse ip)
                 = {| status := 200%Z; json := Success [] |})) /\
  (forall xml,
      snd (_makeRequest axios "GET" (_buildUrl ip "/query/active-app") None)
      = Returned xml ->
      (exists app, snd (activeRoute axios parse ip)
                   = {| status := 200%Z; json := Success app |}) /\
      (forall e, parse xml = Thrown e ->
                 snd (activeRoute axios parse ip)
                 = {| status := 200%Z; json := Success None |})).
Proof.
  unfold appsRoute, activeRoute, respond, getApps, getActiveApp, andThen.
  cbn [snd fst].
  split; [|split; [|split]].
  - intros e He. now rewrite He.
  - intros e He. now rewrite He.
  - intros xml Hx. rewrite Hx. cbn [bind]. split.
    + unfold _parseAppsXml.
      match goal with
      | |- context [try_catch ?b _] =>
          destruct (try_catch_returns b (@nil App.t)) as (apps & ->)
      end. eauto.
    + intros e He. unfold _parseAppsXml. now rewrite He.
  - intros xml Hx. rewrite Hx. cbn [bind]. split.
    + unfold _parseActiveAppXml.
      match goal with
      | |- context [try_catch ?b _] =>
          destruct (try_catch_returns b (@None App.t)) as (app & ->)
      end. eauto.
    + intros e He. unfold _parseActiveAppXml. now rewrite He.
Qed.

Lemma query_routes_outcomes_witness :
  snd (appsRoute notFound malformed "10.0.0.5")
  = {| status := 500%Z; json := Failure "Roku API error: 404 Not Found" |} /\
  snd (appsRoute (ok "not xml") malformed "10.0.0.5")
  = {| status := 200%Z; json := Success [] |}.
Proof.
  destruct (query_routes_outcomes notFound malformed "10.0.0.5")
    as (Hfail & _).
  destruct (query_routes_outcomes (ok "not xml") malformed "10.0.0.5")
    as (_ & _ & Hok & _).
  split.
  - exact (Hfail (Error "Roku API error: 404 Not Found") eq_refl).
  - exact (proj2 (Hok "not xml" eq_refl)
             (Error "Non-whitespace before first tag.") eq_refl).
Defined.
End RouteFacts.
